(** * Profanity API: the request handler of the worker, embedded and verified

    The development follows the POST handler of the worker (the second
    document of [src/seed.ts]): validation of the message, removal of the
    whitelisted words, the two decompositions of the text, one similarity
    query per chunk, the set of flagged matches and the final decision.

    Conventions of the embedding.
    - A JavaScript string is a [string]; its characters stand for code units
      below 256, so [String.length] is the [length] property.
    - A similarity score is an exact rational in canonical form ([Qc]): the
      handler only compares scores and copies them, it never computes with
      them.  The literal [0.95] is read as 95/100: a score that is a double
      is greater than the double [0.95] exactly when it is greater than
      95/100.  Not-a-number scores are outside the model.
    - The body of the request is taken as parsed: a request carries its
      [Content-Type] and the [message] of its body.
    - The queries of a request complete in an order the handler does not
      choose; a run of the handler takes that order as an argument.
    - [PROFANITY_THRESHOLD] and [WHITELIST] come from [./config], the text
      splitter from langchain and the index from Upstash: none of them is
      part of the sources, so they are parameters of the handler. *)

From Stdlib Require Import List Bool Arith Lia Ascii String Permutation Sorted.
From Stdlib Require Import QArith Qcanon.
Import ListNotations.

Local Open Scope string_scope.
Local Open Scope list_scope.

(** ** Strings: [split(/\s/)], [join(" ")], [toLowerCase], [includes] *)

(** The code units below 256 that the character class [\s] matches: TAB, LF,
    VT, FF, CR, SPACE and NO-BREAK SPACE. *)
Definition is_whitespace (c : ascii) : bool :=
  let n := nat_of_ascii c in
  ((n =? 9) || (n =? 10) || (n =? 11) || (n =? 12) || (n =? 13)
   || (n =? 32) || (n =? 160))%nat.

(** [text.split(/\s/)]: every whitespace character is a separator of its own,
    so two separators in a row delimit an empty token, and the empty string
    splits into one empty token. *)
Fixpoint split_whitespace (s : string) : list string :=
  match s with
  | EmptyString => [EmptyString]
  | String c s' =>
      if is_whitespace c then EmptyString :: split_whitespace s'
      else match split_whitespace s' with
           | [] => [String c EmptyString]
           | w :: ws => String c w :: ws
           end
  end.

(** [words.join(sep)] *)
Fixpoint join (sep : string) (l : list string) : string :=
  match l with
  | [] => EmptyString
  | [x] => x
  | x :: l' => (x ++ sep ++ join sep l')%string
  end.

(** [toLowerCase] on one code unit: the letters A-Z, and the capital letters
    of the Latin-1 block (U+00C0 to U+00DE, the multiplication sign apart). *)
Definition lower_char (c : ascii) : ascii :=
  let n := nat_of_ascii c in
  if (((65 <=? n) && (n <=? 90))
      || ((192 <=? n) && (n <=? 222) && negb (n =? 215)))%nat
  then ascii_of_nat (n + 32) else c.

Fixpoint toLowerCase (s : string) : string :=
  match s with
  | EmptyString => EmptyString
  | String c s' => String (lower_char c) (toLowerCase s')
  end.

(** [list.includes(x)] on an array of strings *)
Definition includes (l : list string) (x : string) : bool :=
  existsb (String.eqb x) l.

(** ** Numbers *)

(** [a > b] on scores *)
Definition greater (a b : Qc) : bool :=
  match (a ?= b)%Qc with Gt => true | _ => false end.

(** ** [Array.prototype.sort]

    The engine the worker runs on sorts stably, and it only asks whether
    [comparefn a b] is negative.  An insertion sort that puts an element in
    front of the first one it compares negative with computes the same
    array. *)
Section Sort.
Context {A : Type} (comparefn : A -> A -> Z).

Fixpoint sort_insert (x : A) (l : list A) : list A :=
  match l with
  | [] => [x]
  | y :: l' =>
      if (comparefn x y <? 0)%Z then x :: y :: l'
      else y :: sort_insert x l'
  end.

Definition sort_defined (l : list A) : list A :=
  fold_left (fun acc x => sort_insert x acc) l [].

Fixpoint defined (l : list (option A)) : list A :=
  match l with
  | [] => []
  | Some x :: l' => x :: defined l'
  | None :: l' => defined l'
  end.

(** [undefined] elements are never passed to [comparefn]: they are moved
    to the end of the array. *)
Definition Array_sort (l : list (option A)) : list (option A) :=
  map Some (sort_defined (defined l))
    ++ repeat None (List.length l - List.length (defined l))%nat.

End Sort.

(** ** Data of the handler *)

(** One entry of the array that [index.query] resolves to: its [score] and
    the [text] of its [metadata], when the entry carries metadata. *)
Module Vector.
Record t : Type := { score : Qc; metadata : option string }.
End Vector.

(** What [await index.query(...)] does: it throws (the promise rejects), or
    it resolves to an array, empty when the index has nothing to return. *)
Inductive QueryOutcome : Type :=
| Threw
| Returned (vectors : list Vector.t).

(** An object [{ text, score }] built for [flaggedFor.add].  A [Set] compares
    objects by identity, so every object carries the reference [ref] it got
    when the literal was evaluated. *)
Module Flagged.
Record t : Type := { ref : nat; text : option string; score : Qc }.
End Flagged.

(** The body of a successful response; [flaggedFor] is absent from the body
    of a clean one. *)
Module Json.
Record t : Type :=
  { isProfanity : bool; score : Qc; flaggedFor : option string }.
End Json.

(** [c.json(...)]: a classification, or [{ error }] with its status (the
    [err] field of the 500 response is left out). *)
Inductive Response : Type :=
| Classified (body : Json.t)
| Failed (status : nat) (error : string).

Definition json_body_expected : Response :=
  Failed 406 "JSON body expected.".
Definition message_required : Response :=
  Failed 400 "Message argument is required.".
Definition too_short : Response :=
  Failed 400 "Please enter a longer text, at least 2 words.".
Definition too_long : Response :=
  Failed 400 "Due to temporary cloudflare limits, a message can only be up to 35 words or 1000 characters.".
Definition something_went_wrong : Response :=
  Failed 500 "Something went wrong.".

(** A request: its [Content-Type] header and the [message] of its parsed
    body, both possibly absent. *)
Record Request : Type :=
  { content_type : option string; message : option string }.

(** What a run of the handler does: the queries it sends to the index, in
    the order it sends them, and its response. *)
Record Run : Type := { queries : list string; response : Response }.

(** The objects allocated so far and the set [flaggedFor], in insertion
    order. *)
Record Store : Type := { next_ref : nat; flaggedFor : list Flagged.t }.

Definition empty_store : Store := {| next_ref := 0; flaggedFor := [] |}.

(** [set.has(e)] and [set.add(e)] on objects: same reference *)
Definition Set_has (set : list Flagged.t) (e : Flagged.t) : bool :=
  existsb (fun x => Flagged.ref x =? Flagged.ref e)%nat set.

Definition Set_add (e : Flagged.t) (set : list Flagged.t) : list Flagged.t :=
  if Set_has set e then set else set ++ [e].

(** [flaggedFor.add({ text: vector.metadata?.text, score: vector.score })] *)
Definition add_flagged (vector : Vector.t) (st : Store) : Store :=
  let e := {| Flagged.ref := next_ref st;
              Flagged.text := Vector.metadata vector;
              Flagged.score := Vector.score vector |} in
  {| next_ref := S (next_ref st); flaggedFor := Set_add e (flaggedFor st) |}.

(** The two callbacks given to [map] *)
Inductive Mapper : Type := WordMapper | SemanticMapper.

(** One pending promise of [Promise.all]: its position in the array, the
    callback it runs and the chunk it queries. *)
Record Task : Type := { position : nat; mapper : Mapper; chunk : string }.

(** ** Completion order of the pending queries

    The queries complete in an order the handler does not control.  A list
    of choices fixes one: each choice is the rank, among the promises still
    pending, of the next one to complete (the last one when the rank is too
    large); when the choices run out the rest completes in array order. *)
Fixpoint extract {A : Type} (k : nat) (x : A) (rest : list A) : A * list A :=
  match k, rest with
  | S k', y :: rest' =>
      let (z, r) := extract k' y rest' in (z, x :: r)
  | _, _ => (x, rest)
  end.

Fixpoint completion_order {A : Type} (choices : list nat) (pending : list A)
  : list A :=
  match choices, pending with
  | k :: choices', x :: rest =>
      let (y, pending') := extract k x rest in
      y :: completion_order choices' pending'
  | _, _ => pending
  end.

(** [values[i] = v] *)
Fixpoint set_nth {A : Type} (i : nat) (v : A) (l : list A) : list A :=
  match l, i with
  | [], _ => []
  | _ :: l', O => v :: l'
  | x :: l', S i' => x :: set_nth i' v l'
  end.

(** [(a, b) => (a.score > b.score ? -1 : 1)] *)
Definition by_score {A : Type} (score : A -> Qc) (a b : A) : Z :=
  if greater (score a) (score b) then (-1)%Z else 1%Z.

(** [Array.from(set)] *)
Definition Array_from {A : Type} (set : list A) : list (option A) :=
  map Some set.

(** The promises handed to [Promise.all]: one per word chunk, then one per
    semantic chunk, numbered by their position in the array. *)
Fixpoint number (i : nat) (l : list (Mapper * string)) : list Task :=
  match l with
  | [] => []
  | (m, c) :: l' =>
      {| position := i; mapper := m; chunk := c |} :: number (S i) l'
  end.

Definition promises (wordChunks semanticChunks : list string) : list Task :=
  number 0 (map (pair WordMapper) wordChunks
              ++ map (pair SemanticMapper) semanticChunks).

(** ** The handler *)

Section Handler.

(** [./config] *)
Variable PROFANITY_THRESHOLD : Qc.
Variable WHITELIST : list string.

(** [semanticSplitter.createDocuments([text])], each document mapped to its
    [pageContent] *)
Variable semanticSplitter : string -> list string.

(** [index.query({ topK: 1, data, includeMetadata: true })] as a function of
    [data]: the index does not change while a request is served. *)
Variable index : string -> QueryOutcome.

Definition splitTextIntoWords (text : string) : list string :=
  split_whitespace text.

Definition splitTextIntoSemantics (text : string) : list string :=
  (* no semantics for single words *)
  if (List.length (split_whitespace text) =? 1)%nat then []
  else semanticSplitter text.

(** The callback of a word chunk, from the point where its query has
    resolved to [[vector]]: the store it leaves and the value its promise
    resolves to. *)
Definition word_callback (vector : option Vector.t) (st : Store)
  : option Vector.t * Store :=
  let st' :=
    (* set the profanity threshold to high value for a close word match *)
    match vector with
    | Some v => if greater (Vector.score v) (Q2Qc (95 # 100))
                then add_flagged v st else st
    | None => st
    end in
  (Some {| Vector.score := Q2Qc 0; Vector.metadata := None |}, st').

(** The callback of a semantic chunk, from the same point *)
Definition semantic_callback (vector : option Vector.t) (st : Store)
  : option Vector.t * Store :=
  let st' :=
    (* set the profanity threshold to a lower value for multiple words *)
    match vector with
    | Some v => if greater (Vector.score v) PROFANITY_THRESHOLD
                then add_flagged v st else st
    | None => st
    end in
  (vector, st').

Definition resume (m : Mapper) : option Vector.t -> Store
                                 -> option Vector.t * Store :=
  match m with
  | WordMapper => word_callback
  | SemanticMapper => semantic_callback
  end.

(** The promises complete in the given order.  A query that throws rejects
    [Promise.all], and with it the [await] of the handler: nothing of the
    store is looked at after that. *)
Fixpoint settle (order : list Task) (values : list (option Vector.t))
  (st : Store) : option (list (option Vector.t) * Store) :=
  match order with
  | [] => Some (values, st)
  | t :: order' =>
      match index (chunk t) with
      | Threw => None
      | Returned vectors =>
          let (value, st') := resume (mapper t) (hd_error vectors) st in
          settle order' (set_nth (position t) value values) st'
      end
  end.

Definition Promise_all (tasks : list Task) (choices : list nat)
  : option (list (option Vector.t) * Store) :=
  settle (completion_order choices tasks)
         (repeat None (List.length tasks)) empty_store.

(** The decision, from [if (flaggedFor.size > 0)] on.  Reading [score] of
    [undefined] throws, which the [catch] turns into the 500 response. *)
Definition resolve (vectorRes : list (option Vector.t))
  (flaggedFor : list Flagged.t) : Response :=
  if (0 <? List.length flaggedFor)%nat then
    match hd_error (Array_sort (by_score Flagged.score)
                               (Array_from flaggedFor)) with
    | Some (Some mostProfaneWord) =>
        Classified {| Json.isProfanity := true;
                      Json.score := Flagged.score mostProfaneWord;
                      Json.flaggedFor := Flagged.text mostProfaneWord |}
    | _ => something_went_wrong
    end
  else
    match hd_error (Array_sort (by_score Vector.score) vectorRes) with
    | Some (Some sorted) =>
        Classified {| Json.isProfanity := false;
                      Json.score := Vector.score sorted;
                      Json.flaggedFor := None |}
    | _ => something_went_wrong
    end.

(** The handler from the chunking of the filtered message on *)
Definition classify (message : string) (choices : list nat) : Run :=
  let wordChunks := splitTextIntoWords message in
  let semanticChunks := splitTextIntoSemantics message in
  let tasks := promises wordChunks semanticChunks in
  {| queries := map chunk tasks;
     response :=
       match Promise_all tasks choices with
       | Some (vectorRes, st) => resolve vectorRes (flaggedFor st)
       | None => something_went_wrong
       end |}.

(** filtering out the whitelisted words *)
Definition normalize (message : string) : string :=
  join " "
    (filter (fun word => negb (includes WHITELIST (toLowerCase word)))
            (split_whitespace message)).

(** The checks made before anything else: the response that rejects the
    request, or the message that goes on. *)
Definition validate (req : Request) : Response + string :=
  match content_type req with
  | Some "application/json" =>
      match message req with
      | None | Some EmptyString => inl message_required
      | Some message =>
          if (List.length (split_whitespace message) <? 2)%nat
          then inl too_short
          else if ((35 <? List.length (split_whitespace message))
                   || (1000 <? String.length message))%nat
          then inl too_long
          else inr message
      end
  | _ => inl json_body_expected
  end.

(** [app.post("/", ...)] *)
Definition post (req : Request) (choices : list nat) : Run :=
  match validate req with
  | inl rejection => {| queries := []; response := rejection |}
  | inr message => classify (normalize message) choices
  end.

End Handler.

(** * Specifications *)

(** ** Words used by the statements *)

(** A string without whitespace *)
Fixpoint no_whitespace (s : string) : bool :=
  match s with
  | EmptyString => true
  | String c s' => negb (is_whitespace c) && no_whitespace s'
  end.

(** The number of whitespace-delimited tokens, as the handler counts them *)
Definition token_count (text : string) : nat :=
  List.length (split_whitespace text).

(** [drops P l l']: [l'] is [l] without exactly its elements that satisfy
    [P], the others in their order. *)
Inductive drops {A : Type} (P : A -> Prop) : list A -> list A -> Prop :=
| drops_nil : drops P [] []
| drops_out x l l' : P x -> drops P l l' -> drops P (x :: l) l'
| drops_keep x l l' : ~ P x -> drops P l l' -> drops P (x :: l) (x :: l').

(** A token is whitelisted when its lower-case form is in the whitelist. *)
Definition whitelisted (WHITELIST : list string) (token : string) : Prop :=
  In (toLowerCase token) WHITELIST.

(** ** What the index answers for the chunks of a request *)

(** The threshold of the word chunks *)
Definition T_word : Qc := Q2Qc (95 # 100).

Section Answers.
Variable PROFANITY_THRESHOLD : Qc.
Variable index : string -> QueryOutcome.

(** The threshold of the decomposition a chunk belongs to *)
Definition threshold (m : Mapper) : Qc :=
  match m with
  | WordMapper => T_word
  | SemanticMapper => PROFANITY_THRESHOLD
  end.

(** The query of a promise throws. *)
Definition throws (t : Task) : bool :=
  match index (chunk t) with Threw => true | Returned _ => false end.

(** The match of a chunk: the closest entry of the index, if its query
    returns one. *)
Definition match_of (c : string) : option Vector.t :=
  match index c with
  | Returned vectors => hd_error vectors
  | Threw => None
  end.

(** The score of the match is strictly greater than the threshold of the
    decomposition the chunk belongs to. *)
Definition exceeds (t : Task) : bool :=
  match match_of (chunk t) with
  | Some v => greater (Vector.score v) (threshold (mapper t))
  | None => false
  end.

(** The flagged match of a chunk, as the text and the score of its match:
    none, or one. *)
Definition flagged_match (t : Task) : list (option string * Qc) :=
  match match_of (chunk t) with
  | Some v => if exceeds t then [(Vector.metadata v, Vector.score v)] else []
  | None => []
  end.

(** The scores the index returned for the chunks of the request *)
Definition observed_scores (tasks : list Task) : list Qc :=
  flat_map (fun t => match match_of (chunk t) with
                     | Some v => [Vector.score v]
                     | None => []
                     end) tasks.

(** The value the promise of a chunk resolves to *)
Definition value_of (t : Task) : option Vector.t :=
  match mapper t with
  | WordMapper => Some {| Vector.score := Q2Qc 0; Vector.metadata := None |}
  | SemanticMapper => match_of (chunk t)
  end.

(** The values written by the promises that completed, in their order *)
Definition written (order : list Task) (values : list (option Vector.t))
  : list (option Vector.t) :=
  fold_left (fun vs t => set_nth (position t) (value_of t) vs) order values.

End Answers.

(** The text and the score of a flagged entry *)
Definition content (e : Flagged.t) : option string * Qc :=
  (Flagged.text e, Flagged.score e).

(** The objects built, one after the other, for a list of flagged matches,
    from reference [n] on *)
Fixpoint allocate (n : nat) (l : list (option string * Qc)) : list Flagged.t :=
  match l with
  | [] => []
  | (text, score) :: l' =>
      {| Flagged.ref := n; Flagged.text := text; Flagged.score := score |}
        :: allocate (S n) l'
  end.

(** A store whose set only holds objects allocated before *)
Definition allocated (st : Store) : Prop :=
  Forall (fun e => (Flagged.ref e < next_ref st)%nat) (flaggedFor st).

(** The tasks of a filtered message *)
Definition tasks_of (semanticSplitter : string -> list string)
  (message : string) : list Task :=
  promises (splitTextIntoWords message)
           (splitTextIntoSemantics semanticSplitter message).

(** ** Words about responses and scores *)

(** The response is a classification with [isProfanity: true]. *)
Definition profane (r : Response) : bool :=
  match r with
  | Classified body => Json.isProfanity body
  | Failed _ _ => false
  end.

(** The response without its [flaggedFor] field *)
Definition forget_flaggedFor (r : Response) : Response :=
  match r with
  | Classified body =>
      Classified {| Json.isProfanity := Json.isProfanity body;
                    Json.score := Json.score body;
                    Json.flaggedFor := None |}
  | Failed status error => Failed status error
  end.

(** The promise of a semantic chunk *)
Definition semantic (t : Task) : bool :=
  match mapper t with SemanticMapper => true | WordMapper => false end.

(** [s] is the maximum of the scores [l]. *)
Definition is_top (s : Qc) (l : list Qc) : Prop :=
  In s l /\ forall x, In x l -> (x <= s)%Qc.

(** The same text, or both absent *)
Definition same_text (a b : option string) : bool :=
  match a, b with
  | Some x, Some y => String.eqb x y
  | None, None => true
  | _, _ => false
  end.

(** The flagged matches whose score no other flagged match exceeds *)
Definition top_matches (l : list (option string * Qc))
  : list (option string * Qc) :=
  filter (fun p => forallb (fun q => negb (greater (snd q) (snd p))) l) l.

(** The flagged matches of greatest score all carry the same text. *)
Definition one_top_text (l : list (option string * Qc)) : bool :=
  match top_matches l with
  | [] => true
  | p :: rest => forallb (fun q => same_text (fst q) (fst p)) rest
  end.

(** ** Sample configuration, index and requests *)

(** A request with a JSON body that carries [message] *)
Definition json (message : string) : Request :=
  {| content_type := Some "application/json"; message := Some message |}.

Definition sample_threshold : Qc := Q2Qc (86 # 100).

Definition sample_whitelist : list string := ["black"; "swear"].

(** The splitter on a text that fits one window of 25 characters: the text
    is its only chunk. *)
Definition one_window (text : string) : list string := [text].

Definition entry (score : Q) (text : string) : Vector.t :=
  {| Vector.score := Q2Qc score; Vector.metadata := Some text |}.

(** An index that knows two words at the same distance, is close to
    [hello] and far from everything else, and is down for one word. *)
Definition sample_index (data : string) : QueryOutcome :=
  if String.eqb data "darn" then Returned [entry (97 # 100) "darn"]
  else if String.eqb data "heck" then Returned [entry (97 # 100) "heck"]
  else if String.eqb data "hello" then Returned [entry (9 # 10) "hell"]
  else if String.eqb data "hello world"
       then Returned [entry (1 # 2) "hello word"]
  else if String.eqb data "timeout" then Threw
  else Returned [entry (1 # 10) "heck"].

(** An index with no entry *)
Definition empty_index (data : string) : QueryOutcome := Returned [].

Fixpoint repeat_char (c : ascii) (n : nat) : string :=
  match n with
  | O => EmptyString
  | S n' => String c (repeat_char c n')
  end.

(** One word of 1001 characters *)
Definition long_word : string := repeat_char "a"%char 1001.

(** Thirty-six words *)
Definition many_words : string :=
  join " " (repeat "a" 36).

(** A request whose body is not announced as JSON *)
Definition plain_text_request : Request :=
  {| content_type := Some "text/plain"; message := Some "hi" |}.

(** The handler with the sample configuration *)
Definition sample_post (index : string -> QueryOutcome) (req : Request)
  (choices : list nat) : Run :=
  post sample_threshold sample_whitelist one_window index req choices.

(** The promises of a message with the sample configuration *)
Definition sample_tasks (message : string) : list Task :=
  tasks_of one_window (normalize sample_whitelist message).

(** What [Promise.all] leaves for the message [darn heck] when the queries
    complete in array order *)
Definition darn_heck_values : list (option Vector.t) :=
  [Some {| Vector.score := Q2Qc 0; Vector.metadata := None |};
   Some {| Vector.score := Q2Qc 0; Vector.metadata := None |};
   Some (entry (1 # 10) "heck")].

Definition darn_heck_store : Store :=
  {| next_ref := 2;
     flaggedFor :=
       [{| Flagged.ref := 0; Flagged.text := Some "darn";
           Flagged.score := Q2Qc (97 # 100) |};
        {| Flagged.ref := 1; Flagged.text := Some "heck";
           Flagged.score := Q2Qc (97 # 100) |}] |}.

(** * The seeding script

    The first document of [src/seed.ts] reads the rows of the training
    data and sends them to the index in batches of [STEP] rows.  The rows
    that [parseCSV] resolves to are taken as given; [index.upsert] is a
    parameter that tells, for a batch, whether the call resolves. *)

(** [interface Row { text: string }] *)
Module Row.
Record t : Type := { text : string }.
End Row.

(** One element of the array given to [index.upsert]:
    [{ data, id, metadata: { text } }] *)
Module Upsert.
Record t : Type := { data : string; id : nat; metadata : string }.
End Upsert.

(** for batching requests *)
Definition STEP : nat := 30.

(** [array.slice(start, stop)] for indices that are not negative *)
Definition slice {A : Type} (start stop : nat) (l : list A) : list A :=
  firstn (stop - start) (skipn start l).

(** [array.map((x, k) => f(x, k))], for the elements from index [k] on *)
Fixpoint map_index {A B : Type} (f : A -> nat -> B) (k : nat) (l : list A)
  : list B :=
  match l with
  | [] => []
  | x :: l' => f x k :: map_index f (S k) l'
  end.

(** prepare data to index it into the vector database *)
Definition formatted (i : nat) (chunk : list Row.t) : list Upsert.t :=
  map_index (fun row batchIndex =>
               {| Upsert.data := Row.text row;
                  Upsert.id := i + batchIndex;
                  Upsert.metadata := Row.text row |}) 0 chunk.

(** How a run of [seed] ends: the loop is left, an [upsert] throws, or the
    loop is still running when the bound on its rounds is reached. *)
Inductive SeedEnd : Type := Seeded | UpsertThrew | StillRunning.

(** The loop of [seed] from [i] on, for at most [rounds] rounds: the batches
    given to [index.upsert], in order, and how the run ends. *)
Fixpoint seed_loop (upsert : list Upsert.t -> bool) (data : list Row.t)
  (rounds i : nat) : list (list Upsert.t) * SeedEnd :=
  if (i <? List.length data)%nat then
    match rounds with
    | O => ([], StillRunning)
    | S rounds' =>
        let chunk := slice i (i + STEP) data in
        let batch := formatted i chunk in
        if upsert batch then
          let (calls, e) := seed_loop upsert data rounds' (i + STEP) in
          (batch :: calls, e)
        else ([batch], UpsertThrew)
    end
  else ([], Seeded).

(** [seed], on the rows [parseCSV] resolved to; one round per row is more
    than the loop takes. *)
Definition seed (upsert : list Upsert.t -> bool) (data : list Row.t)
  : list (list Upsert.t) * SeedEnd :=
  seed_loop upsert data (List.length data) 0.

(** The calls up to the first one that throws, that one included *)
Fixpoint until_throw {A : Type} (ok : A -> bool) (calls : list A) : list A :=
  match calls with
  | [] => []
  | c :: calls' => if ok c then c :: until_throw ok calls' else [c]
  end.

(** An index that accepts every batch *)
Definition accepts_all (batch : list Upsert.t) : bool := true.

(** The rows, each with its position as [id], the first one at [k] *)
Definition records_from (k : nat) (rows : list Row.t) : list Upsert.t :=
  map_index (fun row i =>
               {| Upsert.data := Row.text row;
                  Upsert.id := i;
                  Upsert.metadata := Row.text row |}) k rows.

(** ** More words for the statements about the handler *)

(** The number of whitespace characters of a string *)
Fixpoint count_whitespace (s : string) : nat :=
  match s with
  | EmptyString => 0%nat
  | String c s' =>
      ((if is_whitespace c then 1 else 0) + count_whitespace s')%nat
  end.

(** The string with a space in place of each whitespace character *)
Fixpoint spaced (s : string) : string :=
  match s with
  | EmptyString => EmptyString
  | String c s' =>
      String (if is_whitespace c then " "%char else c) (spaced s')
  end.

(** The whitespace characters of the string are all spaces. *)
Fixpoint only_spaces (s : string) : bool :=
  match s with
  | EmptyString => true
  | String c s' =>
      (negb (is_whitespace c) || Ascii.eqb c " "%char) && only_spaces s'
  end.

(** The characters of the tokens, without the separators *)
Definition total_length (tokens : list string) : nat :=
  fold_right (fun w n => String.length w + n)%nat 0%nat tokens.

(** [p] is the first of the flagged matches [l] that none of them exceeds:
    the ones before it score strictly less, the ones after it at most as
    much. *)
Definition earliest_top (l : list (option string * Qc))
  (p : option string * Qc) : Prop :=
  exists l1 l2,
    l = l1 ++ p :: l2
    /\ (forall q, In q l1 -> (snd q < snd p)%Qc)
    /\ (forall q, In q l2 -> (snd q <= snd p)%Qc).

(** The status of a response *)
Definition status_of (r : Response) : nat :=
  match r with
  | Classified _ => 200
  | Failed status _ => status
  end.

(** Sixty-five rows with the same text *)
Definition sample_rows : list Row.t :=
  map (fun _ => {| Row.text := "darn" |}) (seq 0 65).

(** An index that rejects the batch that starts with the row of id 30 *)
Definition rejects_second_batch (batch : list Upsert.t) : bool :=
  match batch with
  | r :: _ => negb (Upsert.id r =? 30)%nat
  | [] => true
  end.

(** * The embedding on small inputs *)

Example split_keeps_empty_tokens :
  split_whitespace "hello  world "
  = ["hello"; EmptyString; "world"; EmptyString].
Proof. reflexivity. Qed.

Example split_empty_string : split_whitespace EmptyString = [EmptyString].
Proof. reflexivity. Qed.

Example split_on_tab :
  split_whitespace (String "a" (String (ascii_of_nat 9) "b")) = ["a"; "b"].
Proof. reflexivity. Qed.

Example join_with_spaces : join " " ["a"; EmptyString; "b"] = "a  b".
Proof. reflexivity. Qed.

Example lower_case : toLowerCase "BlAck Cat!" = "black cat!".
Proof. reflexivity. Qed.

Example normalize_sample :
  normalize sample_whitelist "Black cat  SWEAR sat" = "cat  sat".
Proof. reflexivity. Qed.

Example normalize_all_whitelisted :
  normalize sample_whitelist "Black swear" = EmptyString.
Proof. reflexivity. Qed.

Example sort_is_stable_and_moves_undefined_last :
  Array_sort (by_score Vector.score)
    [None; Some (entry (1 # 2) "x"); Some (entry (9 # 10) "y");
     Some (entry (9 # 10) "z")]
  = [Some (entry (9 # 10) "y"); Some (entry (9 # 10) "z");
     Some (entry (1 # 2) "x"); None].
Proof. reflexivity. Qed.

Example third_promise_completes_first :
  completion_order [2; 0; 5]%nat ["a"; "b"; "c"; "d"; "e"]
  = ["c"; "a"; "e"; "b"; "d"].
Proof. reflexivity. Qed.

Example promises_of_hello_world :
  tasks_of one_window "hello world"
  = [{| position := 0; mapper := WordMapper; chunk := "hello" |};
     {| position := 1; mapper := WordMapper; chunk := "world" |};
     {| position := 2; mapper := SemanticMapper; chunk := "hello world" |}].
Proof. reflexivity. Qed.

Example whitelisted_word_is_not_queried :
  sample_post sample_index (json "black darn") []
  = {| queries := ["darn"];
       response := Classified {| Json.isProfanity := true;
                                 Json.score := Q2Qc (97 # 100);
                                 Json.flaggedFor := Some "darn" |} |}.
Proof. reflexivity. Qed.

Example missing_message :
  sample_post sample_index
    {| content_type := Some "application/json"; message := None |} []
  = {| queries := []; response := message_required |}.
Proof. reflexivity. Qed.

(** ** Splitting and joining *)

Lemma split_whitespace_not_nil (s : string) : split_whitespace s <> [].
Proof.
  destruct s as [|c s]; simpl; [discriminate|].
  destruct (is_whitespace c); [discriminate|].
  destruct (split_whitespace s); discriminate.
Qed.

Lemma token_count_pos (s : string) : (1 <= token_count s)%nat.
Proof.
  unfold token_count.
  pose proof (split_whitespace_not_nil s) as H.
  destruct (split_whitespace s); [congruence | simpl; lia].
Qed.

Lemma split_whitespace_tokens (s : string) :
  Forall (fun w => no_whitespace w = true) (split_whitespace s).
Proof.
  induction s as [|c s IH]; simpl.
  - repeat constructor.
  - destruct (is_whitespace c) eqn:Ec.
    + constructor; [reflexivity | exact IH].
    + destruct (split_whitespace s) as [|w ws].
      * repeat constructor. simpl. now rewrite Ec.
      * inversion IH as [|? ? Hw Hws]; subst.
        constructor; [simpl; now rewrite Ec, Hw | exact Hws].
Qed.

Lemma split_whitespace_token (w : string) :
  no_whitespace w = true -> split_whitespace w = [w].
Proof.
  induction w as [|c w IH]; simpl; intros H; [reflexivity|].
  apply andb_true_iff in H as [Hc Hw].
  apply negb_true_iff in Hc. rewrite Hc, (IH Hw). reflexivity.
Qed.

Lemma split_whitespace_cons (w rest : string) :
  no_whitespace w = true ->
  split_whitespace (w ++ " " ++ rest) = w :: split_whitespace rest.
Proof.
  induction w as [|c w IH]; simpl; intros H; [reflexivity|].
  apply andb_true_iff in H as [Hc Hw].
  apply negb_true_iff in Hc. rewrite Hc.
  simpl in IH. rewrite (IH Hw). reflexivity.
Qed.

Lemma split_whitespace_join (tokens : list string) :
  tokens <> [] ->
  Forall (fun w => no_whitespace w = true) tokens ->
  split_whitespace (join " " tokens) = tokens.
Proof.
  induction tokens as [|w ws IH]; intros Hne Hall; [congruence|].
  inversion Hall as [|? ? Hw Hws]; subst.
  destruct ws as [|w' ws'].
  - simpl. now apply split_whitespace_token.
  - change (join " " (w :: w' :: ws'))
      with (w ++ " " ++ join " " (w' :: ws'))%string.
    rewrite split_whitespace_cons by exact Hw.
    f_equal. apply IH; [discriminate | exact Hws].
Qed.

Lemma includes_In (l : list string) (x : string) :
  includes l x = true <-> In x l.
Proof.
  unfold includes. rewrite existsb_exists. split.
  - intros [y [Hy E]]. apply String.eqb_eq in E. now subst.
  - intros H. exists x. split; [exact H | apply String.eqb_refl].
Qed.

Lemma filter_drops {A : Type} (f : A -> bool) (P : A -> Prop) (l : list A) :
  (forall x, f x = false <-> P x) -> drops P l (filter f l).
Proof.
  intros Hf. induction l as [|x l IH]; simpl; [constructor|].
  destruct (f x) eqn:E.
  - apply drops_keep; [|exact IH]. intros HP. apply Hf in HP. congruence.
  - apply drops_out; [now apply Hf | exact IH].
Qed.

Lemma drops_none {A : Type} (P : A -> Prop) (l l' : list A) :
  (forall x, ~ P x) -> drops P l l' -> l' = l.
Proof.
  intros HP H. induction H as [|x l l' Hx _ _|x l l' _ _ IH].
  - reflexivity.
  - now apply HP in Hx.
  - now rewrite IH.
Qed.

Lemma drops_functional {A : Type} (P : A -> Prop) (l l1 l2 : list A) :
  drops P l l1 -> drops P l l2 -> l1 = l2.
Proof.
  intros H1. revert l2.
  induction H1 as [|x l l1 Hx _ IH|x l l1 Hx _ IH]; intros l2 H2;
    inversion H2; subst; try contradiction; auto.
  f_equal. now apply IH.
Qed.

(** ** Comparing scores *)

Lemma greater_true (a b : Qc) : greater a b = true <-> (b < a)%Qc.
Proof.
  unfold greater. rewrite (Qcgt_alt a b).
  destruct (a ?= b)%Qc; split; congruence.
Qed.

Lemma greater_false (a b : Qc) : greater a b = false <-> (a <= b)%Qc.
Proof.
  unfold greater. rewrite (Qcle_alt a b).
  destruct (a ?= b)%Qc; split; congruence.
Qed.

(** ** The sort puts a greatest score first *)

Section SortFacts.
Context {A : Type} (score : A -> Qc).

Let before (a b : A) : Prop := (score b <= score a)%Qc.

Lemma sort_insert_perm (x : A) (l : list A) :
  Permutation (sort_insert (by_score score) x l) (x :: l).
Proof.
  induction l as [|y l IH]; simpl; [reflexivity|].
  destruct (by_score score x y <? 0)%Z; [reflexivity|].
  rewrite IH. apply perm_swap.
Qed.

Lemma sort_fold_perm (l acc : list A) :
  Permutation
    (fold_left (fun acc x => sort_insert (by_score score) x acc) l acc)
    (acc ++ l).
Proof.
  revert acc. induction l as [|x l IH]; intros acc; simpl.
  - now rewrite app_nil_r.
  - rewrite IH, sort_insert_perm. apply Permutation_middle.
Qed.

Lemma sort_defined_perm (l : list A) :
  Permutation (sort_defined (by_score score) l) l.
Proof. unfold sort_defined. now rewrite sort_fold_perm. Qed.

Lemma by_score_neg (a b : A) :
  (by_score score a b <? 0)%Z = greater (score a) (score b).
Proof. unfold by_score. now destruct (greater (score a) (score b)). Qed.

Lemma sort_insert_sorted (x : A) (l : list A) :
  StronglySorted before l ->
  StronglySorted before (sort_insert (by_score score) x l).
Proof.
  induction 1 as [|y l Hs IH Hy]; simpl.
  - repeat constructor.
  - rewrite by_score_neg. destruct (greater (score x) (score y)) eqn:E.
    + apply greater_true in E.
      constructor; [now constructor|].
      constructor; [now apply Qclt_le_weak|].
      eapply Forall_impl; [|exact Hy].
      intros z Hz. unfold before in *.
      eapply Qcle_trans; [exact Hz | now apply Qclt_le_weak].
    + apply greater_false in E.
      constructor; [exact IH|].
      apply (Permutation_Forall (Permutation_sym (sort_insert_perm x l))).
      now constructor.
Qed.

Lemma sort_fold_sorted (l acc : list A) :
  StronglySorted before acc ->
  StronglySorted before
    (fold_left (fun acc x => sort_insert (by_score score) x acc) l acc).
Proof.
  revert acc. induction l as [|x l IH]; intros acc H; simpl; [exact H|].
  apply IH. now apply sort_insert_sorted.
Qed.

Lemma sort_defined_sorted (l : list A) :
  StronglySorted before (sort_defined (by_score score) l).
Proof. apply sort_fold_sorted. constructor. Qed.

(** The first element of the sorted array is an element of the array, and
    no element has a greater score. *)
Lemma sort_defined_head (l : list A) (x : A) (rest : list A) :
  sort_defined (by_score score) l = x :: rest ->
  In x l /\ forall y, In y l -> (score y <= score x)%Qc.
Proof.
  intros E.
  pose proof (sort_defined_perm l) as P.
  pose proof (sort_defined_sorted l) as S.
  rewrite E in P, S. split.
  - apply (Permutation_in _ P). now left.
  - intros y Hy.
    apply (Permutation_in _ (Permutation_sym P)) in Hy.
    destruct Hy as [<-|Hy]; [apply Qcle_refl|].
    inversion S as [|? ? _ Hall]; subst.
    rewrite Forall_forall in Hall. now apply Hall.
Qed.

Lemma sort_defined_nil (l : list A) :
  sort_defined (by_score score) l = [] -> l = [].
Proof.
  intros E. pose proof (sort_defined_perm l) as P. rewrite E in P.
  now apply Permutation_nil.
Qed.

Lemma Array_sort_head (l : list (option A)) :
  hd_error (Array_sort (by_score score) l)
  = match sort_defined (by_score score) (defined l) with
    | x :: _ => Some (Some x)
    | [] => match l with [] => None | _ :: _ => Some None end
    end.
Proof.
  unfold Array_sort.
  destruct (sort_defined (by_score score) (defined l)) as [|x rest] eqn:E.
  - apply sort_defined_nil in E. rewrite E. simpl.
    destruct l; [reflexivity|]. simpl. reflexivity.
  - reflexivity.
Qed.

Lemma defined_Array_from (l : list A) : defined (Array_from l) = l.
Proof. induction l as [|x l IH]; simpl; [reflexivity | now rewrite IH]. Qed.

End SortFacts.

(** ** Completion orders are the permutations of the pending promises *)

Lemma extract_perm {A : Type} (k : nat) (x : A) (rest : list A) :
  Permutation (fst (extract k x rest) :: snd (extract k x rest)) (x :: rest).
Proof.
  revert x rest. induction k as [|k IH]; intros x rest; simpl.
  - reflexivity.
  - destruct rest as [|y rest']; [reflexivity|].
    specialize (IH y rest').
    destruct (extract k y rest') as [z r]. simpl in *.
    rewrite perm_swap. now rewrite IH.
Qed.

Lemma completion_order_perm {A : Type} (choices : list nat) (l : list A) :
  Permutation (completion_order choices l) l.
Proof.
  revert l. induction choices as [|k choices IH]; intros l; simpl.
  - destruct l; reflexivity.
  - destruct l as [|x rest]; [reflexivity|].
    pose proof (extract_perm k x rest) as P.
    destruct (extract k x rest) as [y pending']. simpl in P.
    now rewrite IH.
Qed.

Lemma extract_at {A : Type} (l1 : list A) (y : A) (l2 : list A)
  (x : A) (rest : list A) :
  l1 ++ y :: l2 = x :: rest ->
  extract (List.length l1) x rest = (y, l1 ++ l2).
Proof.
  revert x rest. induction l1 as [|a l1 IH]; intros x rest E; simpl in *.
  - now inversion E.
  - inversion E; subst.
    destruct l1 as [|b l1']; simpl in *.
    + reflexivity.
    + now rewrite (IH b (l1' ++ y :: l2) eq_refl).
Qed.

(** Every order of completion is the order of some list of choices. *)
Lemma completion_order_complete {A : Type} (order l : list A) :
  Permutation l order -> exists choices, completion_order choices l = order.
Proof.
  revert l. induction order as [|y order IH]; intros l P.
  - apply Permutation_sym, Permutation_nil in P. subst. now exists [].
  - assert (Hin : In y l)
      by (apply (Permutation_in _ (Permutation_sym P)); now left).
    apply in_split in Hin as [l1 [l2 ->]].
    apply Permutation_sym, Permutation_cons_app_inv, Permutation_sym in P.
    destruct (IH _ P) as [choices Hc].
    exists (List.length l1 :: choices).
    destruct (l1 ++ y :: l2) as [|x rest] eqn:E.
    + now destruct l1.
    + simpl. rewrite (extract_at l1 y l2 x rest E). now rewrite Hc.
Qed.

(** ** The promises, their values and the set they fill *)

Lemma set_nth_length {A : Type} (i : nat) (v : A) (l : list A) :
  List.length (set_nth i v l) = List.length l.
Proof.
  revert i. induction l as [|x l IH]; intros [|i]; simpl; auto.
Qed.

Lemma set_nth_same {A : Type} (i : nat) (v : A) (l : list A) :
  (i < List.length l)%nat -> nth_error (set_nth i v l) i = Some v.
Proof.
  revert i. induction l as [|x l IH]; intros [|i] H; simpl in *;
    try lia; [reflexivity | apply IH; lia].
Qed.

Lemma set_nth_other {A : Type} (i j : nat) (v : A) (l : list A) :
  i <> j -> nth_error (set_nth i v l) j = nth_error l j.
Proof.
  revert i j. induction l as [|x l IH]; intros [|i] [|j] H; simpl;
    try reflexivity; try congruence.
  apply IH. congruence.
Qed.

Lemma number_length (i : nat) (l : list (Mapper * string)) :
  List.length (number i l) = List.length l.
Proof.
  revert i. induction l as [|[m c] l IH]; intros i; simpl; auto.
Qed.

Lemma number_nth (i : nat) (l : list (Mapper * string)) (t : Task) :
  In t (number i l) ->
  (i <= position t)%nat
  /\ nth_error (number i l) (position t - i) = Some t.
Proof.
  revert i. induction l as [|[m c] l IH]; intros i H; simpl in *; [tauto|].
  destruct H as [<-|H]; simpl.
  - split; [lia|]. now rewrite Nat.sub_diag.
  - destruct (IH _ H) as [Hle Hn]. split; [lia|].
    replace (position t - i)%nat with (S (position t - S i)) by lia.
    exact Hn.
Qed.

Lemma number_position (i k : nat) (l : list (Mapper * string)) (t : Task) :
  nth_error (number i l) k = Some t -> position t = (i + k)%nat.
Proof.
  revert i k. induction l as [|[m c] l IH]; intros i [|k] H; simpl in *;
    try discriminate.
  - inversion H; subst; simpl. lia.
  - rewrite (IH _ _ H). lia.
Qed.

Lemma number_NoDup (i : nat) (l : list (Mapper * string)) :
  NoDup (map position (number i l)).
Proof.
  revert i. induction l as [|[m c] l IH]; intros i; simpl; constructor.
  - intros H. apply in_map_iff in H as [t [Ht Hin]].
    apply number_nth in Hin as [Hle _]. simpl in Ht. lia.
  - apply IH.
Qed.

Section Settle.
Variable PROFANITY_THRESHOLD : Qc.
Variable index : string -> QueryOutcome.

Lemma Set_add_fresh (e : Flagged.t) (set : list Flagged.t) :
  Forall (fun x => (Flagged.ref x < Flagged.ref e)%nat) set ->
  Set_add e set = set ++ [e].
Proof.
  intros H. unfold Set_add.
  replace (Set_has set e) with false; [reflexivity|].
  symmetry. unfold Set_has. apply not_true_is_false. intros Hex.
  apply existsb_exists in Hex as [x [Hx E]].
  apply Nat.eqb_eq in E. rewrite Forall_forall in H.
  specialize (H x Hx). lia.
Qed.

Lemma add_flagged_allocated (v : Vector.t) (st : Store) :
  allocated st ->
  allocated (add_flagged v st)
  /\ flaggedFor (add_flagged v st)
     = flaggedFor st ++ allocate (next_ref st)
                                 [(Vector.metadata v, Vector.score v)]
  /\ next_ref (add_flagged v st) = S (next_ref st).
Proof.
  intros H. unfold add_flagged. simpl.
  rewrite Set_add_fresh by exact H.
  split; [|split; reflexivity].
  unfold allocated. simpl. apply Forall_app. split.
  - eapply Forall_impl; [|exact H]. simpl. intros; lia.
  - repeat constructor.
Qed.

Lemma allocate_app (n : nat) (l1 l2 : list (option string * Qc)) :
  allocate n (l1 ++ l2)
  = allocate n l1 ++ allocate (n + List.length l1) l2.
Proof.
  revert n. induction l1 as [|[t s] l1 IH]; intros n; simpl.
  - now rewrite Nat.add_0_r.
  - rewrite IH. do 3 f_equal. lia.
Qed.

(** One promise completes: the value it resolves to, and what it adds to the
    set. *)
Lemma resume_spec (t : Task) (vectors : list Vector.t) (st : Store) :
  index (chunk t) = Returned vectors ->
  allocated st ->
  let (value, st') :=
    resume PROFANITY_THRESHOLD (mapper t) (hd_error vectors) st in
  value = value_of index t
  /\ allocated st'
  /\ flaggedFor st'
     = flaggedFor st
         ++ allocate (next_ref st) (flagged_match PROFANITY_THRESHOLD index t)
  /\ next_ref st'
     = (next_ref st
        + List.length (flagged_match PROFANITY_THRESHOLD index t))%nat.
Proof.
  intros Hq Hst.
  unfold resume, word_callback, semantic_callback, flagged_match, exceeds,
    value_of, match_of, threshold.
  rewrite Hq.
  assert (Hsame : allocated st
          /\ flaggedFor st = flaggedFor st ++ allocate (next_ref st) []
          /\ next_ref st = (next_ref st + 0)%nat)
    by (simpl; rewrite app_nil_r, Nat.add_0_r; auto).
  destruct (mapper t); destruct (hd_error vectors) as [v|];
    try (split; [reflexivity | exact Hsame]).
  - fold T_word.
    destruct (greater (Vector.score v) T_word);
      [|split; [reflexivity | exact Hsame]].
    destruct (add_flagged_allocated v st Hst) as [H1 [H2 H3]].
    split; [reflexivity|]. split; [exact H1|]. split; [exact H2|].
    simpl. lia.
  - destruct (greater (Vector.score v) PROFANITY_THRESHOLD);
      [|split; [reflexivity | exact Hsame]].
    destruct (add_flagged_allocated v st Hst) as [H1 [H2 H3]].
    split; [reflexivity|]. split; [exact H1|]. split; [exact H2|].
    simpl. lia.
Qed.

(** A query that throws fails [Promise.all], whenever it completes. *)
Lemma settle_throws (order : list Task) (values : list (option Vector.t))
  (st : Store) :
  existsb (throws index) order = true ->
  settle PROFANITY_THRESHOLD index order values st = None.
Proof.
  revert values st. induction order as [|t order IH]; intros values st H;
    simpl in *; [discriminate|].
  unfold throws in H at 1.
  destruct (index (chunk t)) as [|vectors] eqn:Hq; [reflexivity|].
  simpl in H.
  destruct (resume PROFANITY_THRESHOLD _ _ _) as [value st'].
  now apply IH.
Qed.

(** When no query throws every promise completes: each writes its value at
    its position, and the set receives the flagged matches in the order of
    completion, each as a new object. *)
Lemma settle_returns (order : list Task) (values : list (option Vector.t))
  (st : Store) :
  existsb (throws index) order = false ->
  allocated st ->
  exists st',
    settle PROFANITY_THRESHOLD index order values st
    = Some (written index order values, st')
    /\ allocated st'
    /\ flaggedFor st'
       = flaggedFor st
           ++ allocate (next_ref st)
                (flat_map (flagged_match PROFANITY_THRESHOLD index) order).
Proof.
  revert values st. induction order as [|t order IH]; intros values st H Hst.
  - exists st. simpl. rewrite app_nil_r. auto.
  - simpl in H. apply orb_false_iff in H as [Ht Ho].
    unfold throws in Ht. simpl.
    destruct (index (chunk t)) as [|vectors] eqn:Hq; [discriminate|].
    pose proof (resume_spec t vectors st Hq Hst) as R.
    destruct (resume PROFANITY_THRESHOLD _ _ _) as [value st1].
    destruct R as [-> [Hst1 [Hfl Hnext]]].
    destruct (IH (set_nth (position t) (value_of index t) values) st1 Ho Hst1)
      as [st' [Hs [Hst' Hfl']]].
    exists st'. split; [exact Hs|]. split; [exact Hst'|].
    rewrite Hfl', Hfl, Hnext, allocate_app, app_assoc. reflexivity.
Qed.

End Settle.

(** ** [Promise.all] over the chunks of a message *)

Section PromiseAll.
Variable PROFANITY_THRESHOLD : Qc.
Variable index : string -> QueryOutcome.

Lemma written_length (order : list Task) (values : list (option Vector.t)) :
  List.length (written index order values) = List.length values.
Proof.
  revert values. induction order as [|t order IH]; intros values; simpl.
  - reflexivity.
  - unfold written in *. simpl. rewrite IH. apply set_nth_length.
Qed.

Lemma written_nth (order : list Task) (values : list (option Vector.t))
  (j : nat) :
  NoDup (map position order) ->
  nth_error (written index order values) j
  = match find (fun t => position t =? j)%nat order with
    | Some t => if (j <? List.length values)%nat
                then Some (value_of index t) else None
    | None => nth_error values j
    end.
Proof.
  revert values. induction order as [|t order IH]; intros values Hnd.
  - reflexivity.
  - inversion Hnd as [|? ? Hnot Hnd']; subst.
    unfold written in *. simpl.
    rewrite (IH _ Hnd'). rewrite set_nth_length.
    destruct (position t =? j)%nat eqn:E.
    + apply Nat.eqb_eq in E. subst j.
      destruct (find _ order) as [t'|] eqn:F.
      * apply find_some in F as [Hin Hp]. apply Nat.eqb_eq in Hp.
        exfalso. apply Hnot. rewrite <- Hp. now apply in_map.
      * destruct (position t <? List.length values)%nat eqn:L.
        -- apply Nat.ltb_lt in L. now apply set_nth_same.
        -- apply Nat.ltb_ge in L. apply nth_error_None.
           now rewrite set_nth_length.
    + apply Nat.eqb_neq in E.
      destruct (find _ order) as [t'|]; [reflexivity|].
      now apply set_nth_other.
Qed.

(** Whatever the order of completion, the array [Promise.all] resolves to
    holds the value of each promise at the position of the promise. *)
Lemma written_all (l : list (Mapper * string)) (order : list Task) :
  Permutation order (number 0 l) ->
  written index order (repeat None (List.length (number 0 l)))
  = map (value_of index) (number 0 l).
Proof.
  intros P. apply nth_error_ext. intros j.
  rewrite written_nth
    by (apply (Permutation_NoDup
                 (Permutation_map position (Permutation_sym P))),
         number_NoDup).
  rewrite repeat_length, nth_error_map.
  destruct (find _ order) as [t'|] eqn:F.
  - apply find_some in F as [Hin Hp]. apply Nat.eqb_eq in Hp.
    apply (Permutation_in _ P), number_nth in Hin as [_ Hn].
    rewrite Nat.sub_0_r, Hp in Hn. rewrite Hn. simpl.
    assert (j < List.length (number 0 l))%nat as L
      by (apply nth_error_Some; congruence).
    apply Nat.ltb_lt in L. now rewrite L.
  - destruct (nth_error (number 0 l) j) as [t|] eqn:Hn.
    + exfalso.
      pose proof (number_position _ _ _ _ Hn) as Hp. simpl in Hp.
      apply nth_error_In, (Permutation_in _ (Permutation_sym P)) in Hn.
      apply (find_none _ _ F) in Hn. apply Nat.eqb_neq in Hn. congruence.
    + simpl. apply nth_error_None in Hn.
      apply nth_error_None. now rewrite repeat_length.
Qed.

Lemma existsb_perm {A : Type} (f : A -> bool) (l l' : list A) :
  Permutation l l' -> existsb f l = existsb f l'.
Proof.
  intros P. apply eq_true_iff_eq. rewrite !existsb_exists.
  split; intros [x [Hx Hf]]; exists x; split; auto.
  - now apply (Permutation_in _ P).
  - now apply (Permutation_in _ (Permutation_sym P)).
Qed.

(** [Promise.all] rejects exactly when the query of some chunk throws.
    Otherwise it resolves to the values of the promises in array order, and
    the set holds one new object per flagged match, in the order in which
    the queries completed. *)
Lemma Promise_all_spec (wordChunks semanticChunks : list string)
  (choices : list nat) :
  let tasks := promises wordChunks semanticChunks in
  if existsb (throws index) tasks
  then Promise_all PROFANITY_THRESHOLD index tasks choices = None
  else exists st,
      Promise_all PROFANITY_THRESHOLD index tasks choices
      = Some (map (value_of index) tasks, st)
      /\ flaggedFor st
         = allocate 0
             (flat_map (flagged_match PROFANITY_THRESHOLD index)
                       (completion_order choices tasks)).
Proof.
  intros tasks. unfold Promise_all.
  pose proof (completion_order_perm choices tasks) as P.
  rewrite <- (existsb_perm (throws index) _ _ P).
  destruct (existsb (throws index) (completion_order choices tasks)) eqn:E.
  - now apply settle_throws.
  - assert (Ha : allocated empty_store) by constructor.
    destruct (settle_returns PROFANITY_THRESHOLD index _
                (repeat None (List.length tasks)) empty_store E Ha)
      as [st' [Hs [Hst' Hfl]]].
    exists st'. rewrite Hs. unfold tasks, promises.
    rewrite written_all by exact P. split; [reflexivity | exact Hfl].
Qed.

End PromiseAll.

(** ** The decision *)

Lemma allocate_content (n : nat) (l : list (option string * Qc)) :
  map content (allocate n l) = l.
Proof.
  revert n. induction l as [|[t s] l IH]; intros n; simpl;
    [reflexivity | now rewrite IH].
Qed.

Lemma allocate_length (n : nat) (l : list (option string * Qc)) :
  List.length (allocate n l) = List.length l.
Proof. now rewrite <- (allocate_content n l) at 2; rewrite length_map. Qed.

Lemma allocate_In (n : nat) (l : list (option string * Qc)) (e : Flagged.t) :
  In e (allocate n l) -> In (content e) l.
Proof.
  intros H. rewrite <- (allocate_content n l). now apply in_map.
Qed.

Lemma In_allocate (n : nat) (l : list (option string * Qc))
  (p : option string * Qc) :
  In p l -> exists e, In e (allocate n l) /\ content e = p.
Proof.
  intros H. rewrite <- (allocate_content n l) in H.
  apply in_map_iff in H as [e [He Hin]]. now exists e.
Qed.

(** With a flagged entry in the set, the response is profane and reports an
    entry of the set that no entry exceeds. *)
Lemma resolve_flagged (vectorRes : list (option Vector.t))
  (set : list Flagged.t) :
  set <> [] ->
  exists e,
    In e set
    /\ (forall e', In e' set -> (Flagged.score e' <= Flagged.score e)%Qc)
    /\ resolve vectorRes set
       = Classified {| Json.isProfanity := true;
                       Json.score := Flagged.score e;
                       Json.flaggedFor := Flagged.text e |}.
Proof.
  intros Hne. unfold resolve.
  destruct set as [|e0 set'] eqn:Es; [congruence|].
  rewrite <- Es. replace (0 <? List.length set)%nat with true
    by (subst set; reflexivity).
  rewrite Array_sort_head, defined_Array_from.
  destruct (sort_defined (by_score Flagged.score) set) as [|e rest] eqn:E.
  - apply sort_defined_nil in E. congruence.
  - apply sort_defined_head in E as [Hin Hmax].
    exists e. auto.
Qed.

(** With an empty set, the response is clean and reports the greatest score
    among the values of the promises, as soon as one value is defined. *)
Lemma resolve_clean (vectorRes : list (option Vector.t)) :
  defined vectorRes <> [] ->
  exists v,
    In v (defined vectorRes)
    /\ (forall v', In v' (defined vectorRes) ->
                   (Vector.score v' <= Vector.score v)%Qc)
    /\ resolve vectorRes []
       = Classified {| Json.isProfanity := false;
                       Json.score := Vector.score v;
                       Json.flaggedFor := None |}.
Proof.
  intros Hne. unfold resolve. simpl.
  rewrite Array_sort_head.
  destruct (sort_defined (by_score Vector.score) (defined vectorRes))
    as [|v rest] eqn:E.
  - apply sort_defined_nil in E. congruence.
  - apply sort_defined_head in E as [Hin Hmax].
    exists v. auto.
Qed.

Lemma resolve_not_profane (vectorRes : list (option Vector.t)) :
  profane (resolve vectorRes []) = false.
Proof.
  unfold resolve. simpl.
  destruct (hd_error _) as [[v|]|]; reflexivity.
Qed.

(** ** The promises of a message *)

Lemma number_In (i : nat) (l : list (Mapper * string)) (t : Task) :
  In t (number i l) -> In (mapper t, chunk t) l.
Proof.
  revert i. induction l as [|[m c] l IH]; intros i H; simpl in *; [tauto|].
  destruct H as [<-|H]; [now left | right; eauto].
Qed.

Lemma number_chunks (i : nat) (l : list (Mapper * string)) :
  map (fun t => (mapper t, chunk t)) (number i l) = l.
Proof.
  revert i. induction l as [|[m c] l IH]; intros i; simpl;
    [reflexivity | now rewrite IH].
Qed.

(** The promises of a message start with the one of its first word. *)
Lemma tasks_of_first (semanticSplitter : string -> list string)
  (message : string) :
  exists w rest,
    tasks_of semanticSplitter message
    = {| position := 0; mapper := WordMapper; chunk := w |} :: rest.
Proof.
  unfold tasks_of, promises, splitTextIntoWords.
  pose proof (split_whitespace_not_nil message) as H.
  destruct (split_whitespace message) as [|w ws]; [congruence|].
  simpl. eauto.
Qed.

Lemma tasks_of_chunks (semanticSplitter : string -> list string)
  (message : string) :
  map (fun t => (mapper t, chunk t)) (tasks_of semanticSplitter message)
  = map (pair WordMapper) (splitTextIntoWords message)
      ++ map (pair SemanticMapper)
             (splitTextIntoSemantics semanticSplitter message).
Proof. apply number_chunks. Qed.

(** ** The handler, step by step *)

Section HandlerFacts.
Variable PROFANITY_THRESHOLD : Qc.
Variable WHITELIST : list string.
Variable semanticSplitter : string -> list string.
Variable index : string -> QueryOutcome.

Lemma post_validated (req : Request) (choices : list nat) (message : string) :
  validate req = inr message ->
  post PROFANITY_THRESHOLD WHITELIST semanticSplitter index req choices
  = classify PROFANITY_THRESHOLD semanticSplitter index
             (normalize WHITELIST message) choices.
Proof. intros H. unfold post. now rewrite H. Qed.

Lemma post_rejected (req : Request) (choices : list nat) (r : Response) :
  validate req = inl r ->
  post PROFANITY_THRESHOLD WHITELIST semanticSplitter index req choices
  = {| queries := []; response := r |}.
Proof. intros H. unfold post. now rewrite H. Qed.

Lemma classify_response (text : string) (choices : list nat) :
  let tasks := tasks_of semanticSplitter text in
  response (classify PROFANITY_THRESHOLD semanticSplitter index text choices)
  = if existsb (throws index) tasks then something_went_wrong
    else resolve (map (value_of index) tasks)
           (allocate 0
              (flat_map (flagged_match PROFANITY_THRESHOLD index)
                        (completion_order choices tasks))).
Proof.
  intros tasks. unfold classify. simpl.
  pose proof (Promise_all_spec PROFANITY_THRESHOLD index
                (splitTextIntoWords text)
                (splitTextIntoSemantics semanticSplitter text) choices) as S.
  simpl in S. fold (tasks_of semanticSplitter text) in S |- *.
  fold tasks in S |- *.
  destruct (existsb (throws index) tasks).
  - now rewrite S.
  - destruct S as [st [-> ->]]. reflexivity.
Qed.

Lemma values_defined (text : string) :
  defined (map (value_of index) (tasks_of semanticSplitter text)) <> [].
Proof.
  destruct (tasks_of_first semanticSplitter text) as [w [rest ->]].
  simpl. discriminate.
Qed.

(** The scores among which the clean response picks: a zero for each word
    chunk, and the scores of the matches of the semantic chunks. *)
Lemma reported_scores (tasks : list Task) (x : Qc) :
  In x (map Vector.score (defined (map (value_of index) tasks)))
  <-> (x = Q2Qc 0 /\ existsb (fun t => negb (semantic t)) tasks = true)
      \/ In x (observed_scores index (filter semantic tasks)).
Proof.
  induction tasks as [|t tasks IH]; simpl.
  - split; [tauto | intros [[_ H]|[]]; discriminate].
  - unfold value_of at 1, semantic at 1 3.
    destruct (mapper t); simpl.
    + rewrite IH. unfold observed_scores. intuition.
    + unfold observed_scores in *. simpl.
      destruct (match_of index (chunk t)) as [v|]; simpl; rewrite IH;
        intuition.
Qed.

End HandlerFacts.

(** * The claims *)

Lemma token_count_one (text : string) :
  token_count text = 1%nat -> split_whitespace text = [text].
Proof.
  unfold token_count. induction text as [|c s IH]; simpl; [reflexivity|].
  pose proof (split_whitespace_not_nil s) as Hne.
  destruct (is_whitespace c).
  - destruct (split_whitespace s); simpl; [congruence | discriminate].
  - destruct (split_whitespace s) as [|w ws]; [congruence|].
    destruct ws; simpl; [|discriminate].
    intros _. now injection (IH eq_refl) as ->.
Qed.

(** C8. Normalization splits the text on whitespace, drops exactly the
    tokens whose lower-case form is in the whitelist, keeps the others in
    their order and joins them with single spaces, so that splitting the
    result gives the kept tokens back (one empty token when none is kept).
    With an empty whitelist the token sequence is unchanged. *)
Theorem C8_normalize_drops_whitelisted_tokens
  (WHITELIST : list string) (text : string) :
  exists kept,
    drops (whitelisted WHITELIST) (split_whitespace text) kept
    /\ normalize WHITELIST text = join " " kept
    /\ split_whitespace (normalize WHITELIST text)
       = match kept with [] => [EmptyString] | _ :: _ => kept end
    /\ split_whitespace (normalize [] text) = split_whitespace text.
Proof.
  exists (filter (fun word => negb (includes WHITELIST (toLowerCase word)))
                 (split_whitespace text)).
  split; [|split; [reflexivity|split]].
  - apply filter_drops. intros w. unfold whitelisted.
    rewrite negb_false_iff. apply includes_In.
  - unfold normalize.
    destruct (filter _ (split_whitespace text)) as [|w ws] eqn:E;
      [reflexivity|].
    apply split_whitespace_join; [discriminate|].
    rewrite <- E. apply Forall_forall. intros x Hx.
    apply filter_In in Hx as [Hx _].
    pose proof (split_whitespace_tokens text) as T.
    rewrite Forall_forall in T. now apply T.
  - unfold normalize. simpl.
    replace (filter (fun _ => true) (split_whitespace text))
      with (split_whitespace text).
    + apply split_whitespace_join;
        [apply split_whitespace_not_nil | apply split_whitespace_tokens].
    + induction (split_whitespace text) as [|x l IH]; simpl; congruence.
Qed.

(** C7. A text with exactly one whitespace-delimited token has no semantic
    chunk, and its classification is profane only if the match of its one
    word chunk scores above the word threshold 0.95; semantic chunks exist
    only for a text with more than one token. *)
Theorem C7_single_token_has_no_semantic_chunks
  (PROFANITY_THRESHOLD : Qc) (semanticSplitter : string -> list string)
  (index : string -> QueryOutcome) (text : string) (choices : list nat) :
  (token_count text = 1%nat ->
     splitTextIntoSemantics semanticSplitter text = []
     /\ splitTextIntoWords text = [text]
     /\ (profane
           (response (classify PROFANITY_THRESHOLD semanticSplitter index
                               text choices)) = true ->
         exists v, match_of index text = Some v
                   /\ (T_word < Vector.score v)%Qc))
  /\ (splitTextIntoSemantics semanticSplitter text <> [] ->
      (1 < token_count text)%nat).
Proof.
  split.
  - intros H1.
    assert (Hsem : splitTextIntoSemantics semanticSplitter text = []).
    { unfold splitTextIntoSemantics. unfold token_count in H1.
      now rewrite H1. }
    pose proof (token_count_one text H1) as Hw.
    split; [exact Hsem|]. split; [exact Hw|].
    rewrite classify_response.
    set (t := {| position := 0; mapper := WordMapper; chunk := text |}).
    assert (Ht : tasks_of semanticSplitter text = [t])
      by (unfold tasks_of, splitTextIntoWords; now rewrite Hsem, Hw).
    assert (Ho : completion_order choices [t] = [t])
      by (apply Permutation_length_1_inv, Permutation_sym,
            completion_order_perm).
    rewrite Ht, Ho.
    destruct (existsb (throws index) [t]); [discriminate|].
    cbn [flat_map]. rewrite app_nil_r.
    unfold flagged_match, exceeds. cbn [chunk mapper t threshold].
    destruct (match_of index text) as [v|];
      [|now rewrite resolve_not_profane].
    destruct (greater (Vector.score v) T_word) eqn:G;
      [|now rewrite resolve_not_profane].
    intros _. exists v. split; [reflexivity | now apply greater_true].
  - unfold splitTextIntoSemantics, token_count.
    pose proof (token_count_pos text) as Hp. unfold token_count in Hp.
    destruct (List.length (split_whitespace text) =? 1)%nat eqn:E;
      [congruence|].
    apply Nat.eqb_neq in E. lia.
Qed.

(** When no query throws, the handler answers with a classification. *)
Lemma classified_unless_thrown
  (PROFANITY_THRESHOLD : Qc) (semanticSplitter : string -> list string)
  (index : string -> QueryOutcome) (text : string) (choices : list nat) :
  existsb (throws index) (tasks_of semanticSplitter text) = false ->
  exists body,
    response (classify PROFANITY_THRESHOLD semanticSplitter index
                       text choices) = Classified body.
Proof.
  intros Hno. rewrite classify_response. rewrite Hno.
  pose proof (values_defined semanticSplitter index text) as D.
  destruct (allocate 0 _) as [|e set] eqn:E.
  - destruct (resolve_clean _ D) as [v [_ [_ R]]]. eauto.
  - assert (Hne : e :: set <> []) by discriminate.
    destruct (resolve_flagged
                (map (value_of index) (tasks_of semanticSplitter text))
                (e :: set) Hne) as [e' [_ [_ R]]].
    eauto.
Qed.

(** C10. Splitting any string into word chunks yields at least one chunk.
    So the array of values is never empty, and when no query throws the
    handler answers with a classification: the clean case always has a top
    score to report, the 500 response only comes from a query that throws. *)
Theorem C10_word_chunks_never_empty
  (PROFANITY_THRESHOLD : Qc) (semanticSplitter : string -> list string)
  (index : string -> QueryOutcome) (text : string) (choices : list nat) :
  (1 <= List.length (splitTextIntoWords text))%nat
  /\ (forall vectorRes st,
        Promise_all PROFANITY_THRESHOLD index
          (tasks_of semanticSplitter text) choices = Some (vectorRes, st) ->
        vectorRes <> []
        /\ (flaggedFor st = [] ->
            exists s, resolve vectorRes (flaggedFor st)
                      = Classified {| Json.isProfanity := false;
                                      Json.score := s;
                                      Json.flaggedFor := None |}))
  /\ (existsb (throws index) (tasks_of semanticSplitter text) = false ->
      exists body,
        response (classify PROFANITY_THRESHOLD semanticSplitter index
                           text choices) = Classified body).
Proof.
  split; [apply token_count_pos|]. split.
  - intros vectorRes st H.
    pose proof (Promise_all_spec PROFANITY_THRESHOLD index
                  (splitTextIntoWords text)
                  (splitTextIntoSemantics semanticSplitter text) choices) as S.
    simpl in S. fold (tasks_of semanticSplitter text) in S.
    destruct (existsb (throws index) (tasks_of semanticSplitter text));
      [congruence|].
    destruct S as [st' [S _]]. rewrite S in H. injection H as <- <-.
    pose proof (values_defined semanticSplitter index text) as D.
    split.
    + intros E. rewrite E in D. now apply D.
    + intros ->.
      destruct (resolve_clean _ D) as [v [_ [_ R]]]. eauto.
  - apply classified_unless_thrown.
Qed.

Lemma number_map_chunk (i : nat) (l : list (Mapper * string)) :
  map chunk (number i l) = map snd l.
Proof.
  revert i. induction l as [|[m c] l IH]; intros i; simpl;
    [reflexivity | now rewrite IH].
Qed.

Lemma classify_queries (PROFANITY_THRESHOLD : Qc)
  (semanticSplitter : string -> list string)
  (index : string -> QueryOutcome) (text : string) (choices : list nat) :
  queries (classify PROFANITY_THRESHOLD semanticSplitter index text choices)
  = splitTextIntoWords text ++ splitTextIntoSemantics semanticSplitter text.
Proof.
  unfold classify, promises. simpl.
  rewrite number_map_chunk, map_app, !map_map. simpl.
  now rewrite !map_id.
Qed.

(** C5, as the handler does it. For every request with a JSON body and a
    non-empty message, the checks run on the unmodified message and reject
    the request before any query is sent: with the too-short error when the
    message has fewer than 2 whitespace-delimited tokens, and with the
    too-long error when it has at least 2 tokens and more than 35 tokens or
    more than 1000 characters. *)
Theorem C5_message_size_checked_before_any_query
  (PROFANITY_THRESHOLD : Qc) (WHITELIST : list string)
  (semanticSplitter : string -> list string)
  (index : string -> QueryOutcome) (msg : string) (choices : list nat) :
  msg <> EmptyString ->
  let run := post PROFANITY_THRESHOLD WHITELIST semanticSplitter index
                  (json msg) choices in
  ((token_count msg < 2)%nat ->
     run = {| queries := []; response := too_short |})
  /\ ((2 <= token_count msg)%nat ->
      (35 < token_count msg)%nat \/ (1000 < String.length msg)%nat ->
      run = {| queries := []; response := too_long |}).
Proof.
  intros Hne run.
  assert (V : validate (json msg)
              = if (token_count msg <? 2)%nat then inl too_short
                else if ((35 <? token_count msg)
                         || (1000 <? String.length msg))%nat
                     then inl too_long else inr msg)
    by (destruct msg; [congruence | reflexivity]).
  split.
  - intros H. apply post_rejected. rewrite V.
    apply Nat.ltb_lt in H. now rewrite H.
  - intros H2 H. apply post_rejected. rewrite V.
    apply Nat.ltb_ge in H2. rewrite H2.
    replace ((35 <? token_count msg) || (1000 <? String.length msg))%nat
      with true; [reflexivity|].
    symmetry. apply orb_true_iff.
    destruct H as [H|H]; [left | right]; now apply Nat.ltb_lt.
Qed.

(** C4, as the handler does it. Every chunk is queried once, word chunks
    first; a query that throws fails the whole request with the 500
    response, whatever the other queries return; when no query throws the
    request is answered with a classification, also when the index returns
    nothing for a chunk. *)
Theorem C4_thrown_query_fails_request
  (PROFANITY_THRESHOLD : Qc) (WHITELIST : list string)
  (semanticSplitter : string -> list string)
  (index : string -> QueryOutcome) (req : Request) (choices : list nat)
  (message : string) :
  validate req = inr message ->
  let text := normalize WHITELIST message in
  let run := post PROFANITY_THRESHOLD WHITELIST semanticSplitter index
                  req choices in
  queries run
  = splitTextIntoWords text ++ splitTextIntoSemantics semanticSplitter text
  /\ (existsb (throws index) (tasks_of semanticSplitter text) = true ->
      response run = something_went_wrong)
  /\ (existsb (throws index) (tasks_of semanticSplitter text) = false ->
      exists body, response run = Classified body).
Proof.
  intros V text run. unfold run.
  rewrite (post_validated _ _ _ _ _ _ _ V). fold text.
  split; [apply classify_queries|]. split.
  - intros H. rewrite classify_response. now rewrite H.
  - intros H.
    now apply (classified_unless_thrown PROFANITY_THRESHOLD
                 semanticSplitter index text choices).
Qed.

(** C3. For every request that passes validation and whose queries have all
    completed, the response is profane if and only if the set of flagged
    matches is not empty; its score is then the greatest score in the set,
    and [flaggedFor] is the text of an entry of the set with that score. *)
Theorem C3_profane_iff_flagged_set_not_empty
  (PROFANITY_THRESHOLD : Qc) (WHITELIST : list string)
  (semanticSplitter : string -> list string)
  (index : string -> QueryOutcome) (req : Request) (choices : list nat)
  (message : string) (vectorRes : list (option Vector.t)) (st : Store) :
  validate req = inr message ->
  Promise_all PROFANITY_THRESHOLD index
    (tasks_of semanticSplitter (normalize WHITELIST message)) choices
  = Some (vectorRes, st) ->
  let r := response (post PROFANITY_THRESHOLD WHITELIST semanticSplitter
                          index req choices) in
  (profane r = true <-> flaggedFor st <> [])
  /\ (flaggedFor st <> [] ->
      exists e,
        In e (flaggedFor st)
        /\ (forall e', In e' (flaggedFor st) ->
                       (Flagged.score e' <= Flagged.score e)%Qc)
        /\ r = Classified {| Json.isProfanity := true;
                             Json.score := Flagged.score e;
                             Json.flaggedFor := Flagged.text e |}).
Proof.
  intros V P r.
  assert (R : r = resolve vectorRes (flaggedFor st)).
  { unfold r. rewrite (post_validated _ _ _ _ _ _ _ V).
    unfold classify. simpl.
    fold (tasks_of semanticSplitter (normalize WHITELIST message)).
    now rewrite P. }
  rewrite R. split.
  - split.
    + intros Hp E. rewrite E, resolve_not_profane in Hp. discriminate.
    + intros Hne.
      destruct (resolve_flagged vectorRes _ Hne) as [e [_ [_ ->]]].
      reflexivity.
  - intros Hne. now apply resolve_flagged.
Qed.

Lemma flagged_match_exceeds (PROFANITY_THRESHOLD : Qc)
  (index : string -> QueryOutcome) (t : Task) :
  exceeds PROFANITY_THRESHOLD index t = false ->
  flagged_match PROFANITY_THRESHOLD index t = [].
Proof.
  unfold flagged_match. intros ->. now destruct (match_of index (chunk t)).
Qed.

Lemma no_flagged_match (PROFANITY_THRESHOLD : Qc)
  (index : string -> QueryOutcome) (tasks order : list Task) :
  Permutation order tasks ->
  existsb (exceeds PROFANITY_THRESHOLD index) tasks = false ->
  flat_map (flagged_match PROFANITY_THRESHOLD index) order = [].
Proof.
  intros P H. rewrite (existsb_perm _ _ _ (Permutation_sym P)) in H.
  clear P. induction order as [|t order IH]; simpl in *; [reflexivity|].
  apply orb_false_iff in H as [Ht Ho].
  now rewrite (flagged_match_exceeds _ _ _ Ht), (IH Ho).
Qed.

(** C1, as the handler does it. For every request that passes validation,
    when no query throws and no chunk's score exceeds its threshold, the
    response has [isProfanity: false] and no [flaggedFor], and its score is
    the maximum of zero and the scores returned for the semantic chunks:
    a word chunk counts for zero, whatever its score. *)
Theorem C1_clean_score_is_top_semantic_score_or_zero
  (PROFANITY_THRESHOLD : Qc) (WHITELIST : list string)
  (semanticSplitter : string -> list string)
  (index : string -> QueryOutcome) (req : Request) (choices : list nat)
  (message : string) :
  validate req = inr message ->
  let tasks := tasks_of semanticSplitter (normalize WHITELIST message) in
  existsb (throws index) tasks = false ->
  existsb (exceeds PROFANITY_THRESHOLD index) tasks = false ->
  exists s,
    response (post PROFANITY_THRESHOLD WHITELIST semanticSplitter index
                   req choices)
    = Classified {| Json.isProfanity := false;
                    Json.score := s;
                    Json.flaggedFor := None |}
    /\ is_top s (Q2Qc 0 :: observed_scores index (filter semantic tasks)).
Proof.
  intros V tasks Hthrow Hex.
  rewrite (post_validated _ _ _ _ _ _ _ V), classify_response.
  fold tasks. rewrite Hthrow.
  rewrite (no_flagged_match _ _ tasks)
    by (apply completion_order_perm || exact Hex).
  pose proof (values_defined semanticSplitter index
                (normalize WHITELIST message)) as D.
  fold tasks in D.
  destruct (resolve_clean _ D) as [v [Hin [Hmax R]]].
  exists (Vector.score v). split; [exact R|].
  assert (Hword : existsb (fun t => negb (semantic t)) tasks = true).
  { unfold tasks.
    destruct (tasks_of_first semanticSplitter (normalize WHITELIST message))
      as [w [rest ->]]. reflexivity. }
  split.
  - apply (in_map Vector.score), reported_scores in Hin.
    destruct Hin as [[-> _]|Hin]; [now left | now right].
  - intros x Hx.
    assert (Hx' : In x (map Vector.score
                          (defined (map (value_of index) tasks)))).
    { apply reported_scores. destruct Hx as [<-|Hx]; auto. }
    apply in_map_iff in Hx' as [v' [<- Hv']]. now apply Hmax.
Qed.

(** C6. When the queries of a text have all completed, the set holds the
    flagged matches of its chunks and nothing else, each chunk taken once, in
    the order of completion.  A chunk has at most one flagged match, the text
    and the score of its match; a word chunk has one if and only if the
    score of its match is strictly greater than 0.95, a semantic chunk if
    and only if it is strictly greater than [PROFANITY_THRESHOLD]. *)
Theorem C6_flagged_iff_score_above_threshold
  (PROFANITY_THRESHOLD : Qc) (semanticSplitter : string -> list string)
  (index : string -> QueryOutcome) (text : string) (choices : list nat)
  (vectorRes : list (option Vector.t)) (st : Store) :
  let tasks := tasks_of semanticSplitter text in
  Promise_all PROFANITY_THRESHOLD index tasks choices
  = Some (vectorRes, st) ->
  map content (flaggedFor st)
  = flat_map (flagged_match PROFANITY_THRESHOLD index)
             (completion_order choices tasks)
  /\ Permutation (completion_order choices tasks) tasks
  /\ forall t,
      (flagged_match PROFANITY_THRESHOLD index t = []
       \/ exists v, match_of index (chunk t) = Some v
                    /\ flagged_match PROFANITY_THRESHOLD index t
                       = [(Vector.metadata v, Vector.score v)])
      /\ (mapper t = WordMapper ->
          (flagged_match PROFANITY_THRESHOLD index t <> []
           <-> exists v, match_of index (chunk t) = Some v
                         /\ (Q2Qc (95 # 100) < Vector.score v)%Qc))
      /\ (mapper t = SemanticMapper ->
          (flagged_match PROFANITY_THRESHOLD index t <> []
           <-> exists v, match_of index (chunk t) = Some v
                         /\ (PROFANITY_THRESHOLD < Vector.score v)%Qc)).
Proof.
  intros tasks P. split; [|split; [apply completion_order_perm|]].
  - pose proof (Promise_all_spec PROFANITY_THRESHOLD index
                  (splitTextIntoWords text)
                  (splitTextIntoSemantics semanticSplitter text) choices) as S.
    simpl in S. fold (tasks_of semanticSplitter text) in S. fold tasks in S.
    destruct (existsb (throws index) tasks); [congruence|].
    destruct S as [st' [S F]]. rewrite S in P. injection P as _ <-.
    rewrite F. apply allocate_content.
  - intros t.
    assert (K : forall T, threshold PROFANITY_THRESHOLD (mapper t) = T ->
              (flagged_match PROFANITY_THRESHOLD index t <> []
               <-> exists v, match_of index (chunk t) = Some v
                             /\ (T < Vector.score v)%Qc)).
    { intros T HT. unfold flagged_match, exceeds. rewrite HT.
      destruct (match_of index (chunk t)) as [v|].
      - destruct (greater (Vector.score v) T) eqn:G.
        + apply greater_true in G. split; [eauto | discriminate].
        + apply greater_false in G. split; [congruence|].
          intros [v' [E L]]. injection E as <-.
          exfalso. now apply (Qcle_not_lt _ _ G).
      - split; [congruence | intros [v' [E _]]; discriminate]. }
    split; [|split].
    + unfold flagged_match.
      destruct (match_of index (chunk t)) as [v|]; [|now left].
      destruct (exceeds PROFANITY_THRESHOLD index t); [right; eauto | now left].
    + intros Hm. apply K. now rewrite Hm.
    + intros Hm. apply K. now rewrite Hm.
Qed.

Lemma same_text_eq (a b : option string) : same_text a b = true -> a = b.
Proof.
  destruct a as [x|], b as [y|]; simpl; intros H; try discriminate; auto.
  apply String.eqb_eq in H. now subst.
Qed.

Lemma top_matches_In (l : list (option string * Qc))
  (p : option string * Qc) :
  In p l -> (forall x, In x l -> (snd x <= snd p)%Qc) -> In p (top_matches l).
Proof.
  intros Hin Hmax. unfold top_matches. apply filter_In. split; [exact Hin|].
  apply forallb_forall. intros x Hx.
  apply negb_true_iff, greater_false. now apply Hmax.
Qed.

Lemma one_top_text_spec (l : list (option string * Qc))
  (p q : option string * Qc) :
  one_top_text l = true ->
  In p (top_matches l) -> In q (top_matches l) -> fst p = fst q.
Proof.
  unfold one_top_text. destruct (top_matches l) as [|p0 rest]; [easy|].
  intros H Hp Hq. rewrite forallb_forall in H.
  assert (K : forall x, In x (p0 :: rest) -> fst x = fst p0).
  { intros x [<-|Hx]; [reflexivity|]. now apply same_text_eq, H. }
  now rewrite (K p Hp), (K q Hq).
Qed.

(** Two orders of completion: the same decision, but for the text reported
    when several flagged matches share the greatest score. *)
Lemma resolve_perm (vectorRes : list (option Vector.t))
  (l0 l1 l2 : list (option string * Qc)) :
  Permutation l1 l0 -> Permutation l2 l0 ->
  forget_flaggedFor (resolve vectorRes (allocate 0 l1))
  = forget_flaggedFor (resolve vectorRes (allocate 0 l2))
  /\ (one_top_text l0 = true ->
      resolve vectorRes (allocate 0 l1) = resolve vectorRes (allocate 0 l2)).
Proof.
  intros P1 P2.
  destruct l0 as [|p0 l0'].
  - apply Permutation_sym, Permutation_nil in P1.
    apply Permutation_sym, Permutation_nil in P2. subst. auto.
  - assert (N1 : allocate 0 l1 <> []).
    { intros E. apply (f_equal (@List.length _)) in E.
      rewrite allocate_length, (Permutation_length P1) in E. discriminate. }
    assert (N2 : allocate 0 l2 <> []).
    { intros E. apply (f_equal (@List.length _)) in E.
      rewrite allocate_length, (Permutation_length P2) in E. discriminate. }
    destruct (resolve_flagged vectorRes _ N1) as [e1 [I1 [M1 ->]]].
    destruct (resolve_flagged vectorRes _ N2) as [e2 [I2 [M2 ->]]].
    assert (T1 : forall x, In x (p0 :: l0') ->
                           (snd x <= Flagged.score e1)%Qc).
    { intros x Hx. apply (Permutation_in _ (Permutation_sym P1)) in Hx.
      destruct (In_allocate 0 _ _ Hx) as [e [He <-]]. now apply M1. }
    assert (T2 : forall x, In x (p0 :: l0') ->
                           (snd x <= Flagged.score e2)%Qc).
    { intros x Hx. apply (Permutation_in _ (Permutation_sym P2)) in Hx.
      destruct (In_allocate 0 _ _ Hx) as [e [He <-]]. now apply M2. }
    apply allocate_In, (Permutation_in _ P1) in I1.
    apply allocate_In, (Permutation_in _ P2) in I2.
    assert (S : Flagged.score e1 = Flagged.score e2)
      by (apply Qcle_antisym; [apply (T2 _ I1) | apply (T1 _ I2)]).
    simpl. rewrite S. split; [reflexivity|].
    intros H.
    pose proof (one_top_text_spec _ (content e1) (content e2) H
                  (top_matches_In _ _ I1 T1)) as E.
    simpl in E. rewrite E; [reflexivity|].
    apply top_matches_In; [exact I2 | exact T2].
Qed.

(** C9, as the handler does it. The response of a request does not depend
    on the order in which its queries complete, but for one field: the same
    queries are sent, and the responses agree on everything except
    [flaggedFor]; they agree on [flaggedFor] too whenever the flagged
    matches of greatest score all carry the same text. *)
Theorem C9_response_independent_of_completion_order
  (PROFANITY_THRESHOLD : Qc) (WHITELIST : list string)
  (semanticSplitter : string -> list string)
  (index : string -> QueryOutcome) (req : Request)
  (choices1 choices2 : list nat) :
  let run1 := post PROFANITY_THRESHOLD WHITELIST semanticSplitter index
                   req choices1 in
  let run2 := post PROFANITY_THRESHOLD WHITELIST semanticSplitter index
                   req choices2 in
  queries run1 = queries run2
  /\ forget_flaggedFor (response run1) = forget_flaggedFor (response run2)
  /\ (forall message,
        validate req = inr message ->
        one_top_text
          (flat_map (flagged_match PROFANITY_THRESHOLD index)
             (tasks_of semanticSplitter (normalize WHITELIST message)))
        = true ->
        run1 = run2).
Proof.
  intros run1 run2. unfold run1, run2.
  destruct (validate req) as [r|message] eqn:V.
  - rewrite !(post_rejected _ _ _ _ _ _ _ V).
    split; [reflexivity|]. split; [reflexivity|]. discriminate.
  - rewrite !(post_validated _ _ _ _ _ _ _ V).
    set (text := normalize WHITELIST message).
    assert (Q : forall c,
              classify PROFANITY_THRESHOLD semanticSplitter index text c
              = {| queries := splitTextIntoWords text
                              ++ splitTextIntoSemantics semanticSplitter text;
                   response :=
                     response (classify PROFANITY_THRESHOLD semanticSplitter
                                        index text c) |}).
    { intros c. rewrite <- classify_queries with
        (PROFANITY_THRESHOLD := PROFANITY_THRESHOLD) (index := index)
        (choices := c).
      now destruct (classify _ _ _ _ _). }
    rewrite (Q choices1), (Q choices2). cbn [queries response].
    rewrite !classify_response.
    destruct (existsb (throws index) (tasks_of semanticSplitter text)).
    + split; [reflexivity|]. split; reflexivity.
    + set (tasks := tasks_of semanticSplitter text).
      destruct (resolve_perm (map (value_of index) tasks)
                  (flat_map (flagged_match PROFANITY_THRESHOLD index) tasks)
                  (flat_map (flagged_match PROFANITY_THRESHOLD index)
                            (completion_order choices1 tasks))
                  (flat_map (flagged_match PROFANITY_THRESHOLD index)
                            (completion_order choices2 tasks)))
        as [F E];
        try (apply Permutation_flat_map, completion_order_perm).
      split; [reflexivity|]. split; [exact F|].
      intros m Hm H. injection Hm as <-. now rewrite (E H).
Qed.

(** * The claims on sample requests *)

(** C2, on the request [darn darn]. Both word chunks are flagged with the
    same text and the same score, and the set holds two entries: the two
    objects are not the same object. *)
Theorem C2_identical_flagged_matches_are_two_entries :
  validate (json "darn darn") = inr "darn darn"
  /\ exists vectorRes st,
      Promise_all sample_threshold sample_index (sample_tasks "darn darn") []
      = Some (vectorRes, st)
      /\ map content (flaggedFor st)
         = [(Some "darn", Q2Qc (97 # 100)); (Some "darn", Q2Qc (97 # 100))]
      /\ List.length (flaggedFor st) = 2%nat.
Proof.
  split; [reflexivity|].
  eexists. eexists. split; [vm_compute; reflexivity|].
  split; reflexivity.
Qed.

(** C1 fails on the request [hello world]: no score exceeds its threshold,
    the word [hello] scores 0.9, and the response reports 0.5, the score of
    the semantic chunk. *)
Lemma C1_counterexample_word_score_not_reported :
  validate (json "hello world") = inr "hello world"
  /\ existsb (throws sample_index) (sample_tasks "hello world") = false
  /\ existsb (exceeds sample_threshold sample_index)
             (sample_tasks "hello world") = false
  /\ response (sample_post sample_index (json "hello world") [])
     = Classified {| Json.isProfanity := false;
                     Json.score := Q2Qc (1 # 2);
                     Json.flaggedFor := None |}
  /\ In (Q2Qc (9 # 10))
        (observed_scores sample_index (sample_tasks "hello world"))
  /\ ~ is_top (Q2Qc (1 # 2))
         (observed_scores sample_index (sample_tasks "hello world")).
Proof.
  assert (I : In (Q2Qc (9 # 10))
                (observed_scores sample_index (sample_tasks "hello world")))
    by (vm_compute; auto).
  repeat (split; [reflexivity || exact I|]).
  intros [_ H]. specialize (H _ I). vm_compute in H. now apply H.
Qed.

Lemma C1_witness :
  validate (json "hello world") = inr "hello world"
  /\ exists s,
      response (sample_post sample_index (json "hello world") [])
      = Classified {| Json.isProfanity := false;
                      Json.score := s;
                      Json.flaggedFor := None |}
      /\ is_top s
           (Q2Qc 0 :: observed_scores sample_index
                        (filter semantic (sample_tasks "hello world"))).
Proof.
  split; [reflexivity|].
  apply (C1_clean_score_is_top_semantic_score_or_zero
           sample_threshold sample_whitelist one_window sample_index
           (json "hello world") [] "hello world"); reflexivity.
Defined.

Lemma C3_witness :
  validate (json "darn heck") = inr "darn heck"
  /\ Promise_all sample_threshold sample_index (sample_tasks "darn heck") []
     = Some (darn_heck_values, darn_heck_store)
  /\ (profane (response (sample_post sample_index (json "darn heck") []))
      = true <-> flaggedFor darn_heck_store <> []).
Proof.
  split; [reflexivity|]. split; [reflexivity|].
  apply (C3_profane_iff_flagged_set_not_empty
           sample_threshold sample_whitelist one_window sample_index
           (json "darn heck") [] "darn heck"
           darn_heck_values darn_heck_store); reflexivity.
Defined.

(** C4 fails on the request [hello world] against an index that returns
    nothing: the request is answered with a clean classification. *)
Lemma C4_counterexample_empty_answer_is_no_failure :
  validate (json "hello world") = inr "hello world"
  /\ (forall t, In t (sample_tasks "hello world") ->
                empty_index (chunk t) = Returned [])
  /\ sample_post empty_index (json "hello world") []
     = {| queries := ["hello"; "world"; "hello world"];
          response := Classified {| Json.isProfanity := false;
                                    Json.score := Q2Qc 0;
                                    Json.flaggedFor := None |} |}.
Proof. repeat split; reflexivity. Qed.

Lemma C4_witness :
  validate (json "timeout darn") = inr "timeout darn"
  /\ existsb (throws sample_index) (sample_tasks "timeout darn") = true
  /\ response (sample_post sample_index (json "timeout darn") [1%nat])
     = something_went_wrong.
Proof.
  split; [reflexivity|]. split; [reflexivity|].
  apply (C4_thrown_query_fails_request
           sample_threshold sample_whitelist one_window sample_index
           (json "timeout darn") [1%nat] "timeout darn"); reflexivity.
Defined.

(** C5 fails on three requests: an empty message has fewer than 2 tokens
    and is rejected as missing; a single word of 1001 characters is rejected
    as too short, not as too long; a short message in a body that is not
    announced as JSON is rejected for its content type. *)
Lemma C5_counterexample_other_rejections :
  ((token_count EmptyString < 2)%nat
   /\ response (sample_post sample_index (json EmptyString) [])
      = message_required
   /\ message_required <> too_short)
  /\ ((1000 < String.length long_word)%nat
      /\ response (sample_post sample_index (json long_word) []) = too_short
      /\ too_short <> too_long)
  /\ ((token_count "hi" < 2)%nat
      /\ response (sample_post sample_index plain_text_request [])
         = json_body_expected
      /\ json_body_expected <> too_short).
Proof.
  repeat split; try (vm_compute; lia); try reflexivity; discriminate.
Qed.

Lemma C5_witness :
  ("hello" <> EmptyString
   /\ (token_count "hello" < 2)%nat
   /\ sample_post sample_index (json "hello") []
      = {| queries := []; response := too_short |})
  /\ (many_words <> EmptyString
      /\ (2 <= token_count many_words)%nat
      /\ (35 < token_count many_words)%nat
      /\ sample_post sample_index (json many_words) []
         = {| queries := []; response := too_long |}).
Proof.
  split.
  - split; [discriminate|]. split; [vm_compute; lia|].
    apply (C5_message_size_checked_before_any_query
             sample_threshold sample_whitelist one_window sample_index
             "hello" []); [discriminate | vm_compute; lia].
  - split; [discriminate|]. split; [vm_compute; lia|].
    split; [vm_compute; lia|].
    apply (C5_message_size_checked_before_any_query
             sample_threshold sample_whitelist one_window sample_index
             many_words []);
      [discriminate | vm_compute; lia | left; vm_compute; lia].
Defined.

Lemma C6_witness :
  Promise_all sample_threshold sample_index (tasks_of one_window "darn heck")
              [1%nat]
  = Some (darn_heck_values,
          {| next_ref := 2;
             flaggedFor :=
               [{| Flagged.ref := 0; Flagged.text := Some "heck";
                   Flagged.score := Q2Qc (97 # 100) |};
                {| Flagged.ref := 1; Flagged.text := Some "darn";
                   Flagged.score := Q2Qc (97 # 100) |}] |})
  /\ [(Some "heck", Q2Qc (97 # 100)); (Some "darn", Q2Qc (97 # 100))]
     = flat_map (flagged_match sample_threshold sample_index)
                (completion_order [1%nat] (tasks_of one_window "darn heck")).
Proof.
  split; [reflexivity|].
  apply (C6_flagged_iff_score_above_threshold
           sample_threshold one_window sample_index "darn heck" [1%nat]
           darn_heck_values
           {| next_ref := 2;
              flaggedFor :=
                [{| Flagged.ref := 0; Flagged.text := Some "heck";
                    Flagged.score := Q2Qc (97 # 100) |};
                 {| Flagged.ref := 1; Flagged.text := Some "darn";
                    Flagged.score := Q2Qc (97 # 100) |}] |}).
  reflexivity.
Defined.

Lemma C7_witness :
  token_count "darn" = 1%nat
  /\ splitTextIntoSemantics one_window "darn" = []
  /\ splitTextIntoWords "darn" = ["darn"].
Proof.
  split; [reflexivity|].
  destruct (C7_single_token_has_no_semantic_chunks
              sample_threshold one_window sample_index "darn" [])
    as [H _].
  destruct (H eq_refl) as [Hs [Hw _]]. split; [exact Hs | exact Hw].
Defined.

(** C9 fails on the request [darn heck]: both words are flagged with the
    same score, and the response reports the text of the one whose query
    completes first. *)
Lemma C9_counterexample_tie_follows_completion_order :
  validate (json "darn heck") = inr "darn heck"
  /\ response (sample_post sample_index (json "darn heck") [])
     = Classified {| Json.isProfanity := true;
                     Json.score := Q2Qc (97 # 100);
                     Json.flaggedFor := Some "darn" |}
  /\ response (sample_post sample_index (json "darn heck") [1%nat])
     = Classified {| Json.isProfanity := true;
                     Json.score := Q2Qc (97 # 100);
                     Json.flaggedFor := Some "heck" |}
  /\ sample_post sample_index (json "darn heck") []
     <> sample_post sample_index (json "darn heck") [1%nat].
Proof.
  repeat split; try reflexivity.
  intros H. apply (f_equal response) in H. vm_compute in H. discriminate.
Qed.

Lemma C9_witness :
  validate (json "darn darn") = inr "darn darn"
  /\ one_top_text
       (flat_map (flagged_match sample_threshold sample_index)
                 (sample_tasks "darn darn")) = true
  /\ sample_post sample_index (json "darn darn") []
     = sample_post sample_index (json "darn darn") [1%nat].
Proof.
  split; [reflexivity|]. split; [reflexivity|].
  apply (C9_response_independent_of_completion_order
           sample_threshold sample_whitelist one_window sample_index
           (json "darn darn") [] [1%nat]) with (message := "darn darn");
    reflexivity.
Defined.

Lemma C10_witness :
  existsb (throws sample_index) (tasks_of one_window EmptyString)
  = false
  /\ exists body,
      response (classify sample_threshold one_window sample_index
                         EmptyString [])
      = Classified body.
Proof.
  split; [reflexivity|].
  apply (C10_word_chunks_never_empty
           sample_threshold one_window sample_index EmptyString []).
  reflexivity.
Defined.

(** * Further properties of the handler *)

(** ** Tokens and whitespace *)

Lemma join_cons_char (sep : string) (c : ascii) (w : string)
  (ws : list string) :
  join sep (String c w :: ws) = String c (join sep (w :: ws)).
Proof. destruct ws; reflexivity. Qed.

Lemma join_cons (sep w : string) (ws : list string) :
  ws <> [] -> join sep (w :: ws) = (w ++ sep ++ join sep ws)%string.
Proof. destruct ws; [congruence | reflexivity]. Qed.

Lemma length_append (a b : string) :
  String.length (a ++ b) = (String.length a + String.length b)%nat.
Proof. induction a as [|c a IH]; simpl; [reflexivity | now rewrite IH]. Qed.

Lemma join_length (tokens : list string) :
  String.length (join " " tokens)
  = (total_length tokens + (List.length tokens - 1))%nat.
Proof.
  induction tokens as [|w ws IH]; [reflexivity|].
  destruct ws as [|w' ws'].
  - simpl. lia.
  - rewrite join_cons by discriminate.
    rewrite !length_append, IH. simpl. lia.
Qed.

Lemma filter_total_length (f : string -> bool) (tokens : list string) :
  (total_length (filter f tokens) <= total_length tokens)%nat
  /\ (List.length (filter f tokens) <= List.length tokens)%nat.
Proof.
  induction tokens as [|w ws [IH1 IH2]]; simpl; [lia|].
  destruct (f w); simpl; lia.
Qed.

Lemma split_length (s : string) :
  String.length s
  = (total_length (split_whitespace s)
     + (List.length (split_whitespace s) - 1))%nat.
Proof.
  induction s as [|c s IH]; simpl; [reflexivity|].
  pose proof (split_whitespace_not_nil s) as Hne.
  destruct (is_whitespace c); simpl.
  - rewrite IH. destruct (split_whitespace s); [congruence | simpl; lia].
  - destruct (split_whitespace s) as [|w ws]; [congruence|].
    simpl in *. rewrite IH. lia.
Qed.

(** Splitting loses nothing: a string has one token more than it has
    whitespace characters, and its length is the length of its tokens plus
    one for each separator. *)
Theorem split_counts_whitespace (s : string) :
  token_count s = S (count_whitespace s)
  /\ String.length s
     = (total_length (split_whitespace s) + count_whitespace s)%nat.
Proof.
  assert (C : token_count s = S (count_whitespace s)).
  { unfold token_count. induction s as [|c s IH]; simpl; [reflexivity|].
    destruct (is_whitespace c); simpl.
    - now rewrite IH.
    - pose proof (split_whitespace_not_nil s) as Hne.
      destruct (split_whitespace s) as [|w ws]; [congruence|].
      simpl in *. exact IH. }
  split; [exact C|].
  rewrite split_length. unfold token_count in C. rewrite C. lia.
Qed.

Lemma spaced_length (s : string) :
  String.length (spaced s) = String.length s.
Proof. induction s as [|c s IH]; simpl; [reflexivity | now rewrite IH]. Qed.

Lemma spaced_only_spaces (s : string) : only_spaces s = true -> spaced s = s.
Proof.
  induction s as [|c s IH]; simpl; intros H; [reflexivity|].
  apply andb_true_iff in H as [Hc Hs]. rewrite (IH Hs).
  destruct (is_whitespace c); [|reflexivity].
  simpl in Hc. apply Ascii.eqb_eq in Hc. now subst.
Qed.

(** Joining the tokens of a string with spaces gives the string back with
    a space in place of each whitespace character: the same length, and the
    same string when its whitespace characters are all spaces. *)
Theorem join_split_spaces (s : string) :
  join " " (split_whitespace s) = spaced s
  /\ String.length (spaced s) = String.length s
  /\ (only_spaces s = true -> join " " (split_whitespace s) = s).
Proof.
  assert (J : join " " (split_whitespace s) = spaced s).
  { induction s as [|c s IH]; simpl; [reflexivity|].
    pose proof (split_whitespace_not_nil s) as Hne.
    destruct (is_whitespace c).
    - rewrite join_cons by exact Hne. simpl. now rewrite IH.
    - destruct (split_whitespace s) as [|w ws]; [congruence|].
      rewrite join_cons_char. now rewrite IH. }
  split; [exact J|]. split; [apply spaced_length|].
  intros H. rewrite J. now apply spaced_only_spaces.
Qed.

Lemma join_split_spaces_witness :
  only_spaces "hello  world " = true
  /\ join " " (split_whitespace "hello  world ") = "hello  world ".
Proof.
  split; [reflexivity|].
  apply (join_split_spaces "hello  world "). reflexivity.
Defined.

Lemma filter_filter {A : Type} (f : A -> bool) (l : list A) :
  filter f (filter f l) = filter f l.
Proof.
  induction l as [|x l IH]; simpl; [reflexivity|].
  destruct (f x) eqn:E; simpl; [now rewrite E, IH | exact IH].
Qed.

(** Filtering a filtered message changes nothing. *)
Theorem normalize_idempotent (WHITELIST : list string) (message : string) :
  normalize WHITELIST (normalize WHITELIST message)
  = normalize WHITELIST message.
Proof.
  unfold normalize.
  set (keep := fun word => negb (includes WHITELIST (toLowerCase word))).
  destruct (filter keep (split_whitespace message)) as [|w ws] eqn:E.
  - simpl. destruct (keep EmptyString); reflexivity.
  - rewrite split_whitespace_join.
    + now rewrite <- E, filter_filter.
    + discriminate.
    + rewrite <- E. apply Forall_forall. intros x Hx.
      apply filter_In in Hx as [Hx _].
      pose proof (split_whitespace_tokens message) as T.
      rewrite Forall_forall in T. now apply T.
Qed.

(** Filtering never makes a message longer, nor gives it more tokens. *)
Theorem normalize_not_longer (WHITELIST : list string) (message : string) :
  (String.length (normalize WHITELIST message) <= String.length message)%nat
  /\ (token_count (normalize WHITELIST message) <= token_count message)%nat.
Proof.
  unfold normalize.
  set (keep := fun word => negb (includes WHITELIST (toLowerCase word))).
  destruct (filter_total_length keep (split_whitespace message)) as [Ht Hl].
  split.
  - rewrite join_length, (split_length message). lia.
  - pose proof (token_count_pos message) as Hp.
    destruct (filter keep (split_whitespace message)) as [|w ws] eqn:E.
    + exact Hp.
    + unfold token_count at 1. rewrite split_whitespace_join.
      * exact Hl.
      * discriminate.
      * rewrite <- E. apply Forall_forall. intros x Hx.
        apply filter_In in Hx as [Hx _].
        pose proof (split_whitespace_tokens message) as T.
        rewrite Forall_forall in T. now apply T.
Qed.

(** ** Which requests go on to the index *)

Lemma json_gate {A : Type} (ct : option string) (a b : A) :
  match ct with
  | Some "application/json" => a
  | _ => b
  end = if same_text ct (Some "application/json") then a else b.
Proof.
  destruct ct as [s|]; [|reflexivity].
  do 16 (destruct s as [|[[] [] [] [] [] [] [] []] s]; try reflexivity).
  destruct s; reflexivity.
Qed.

Lemma validate_steps (req : Request) :
  validate req
  = if same_text (content_type req) (Some "application/json") then
      match message req with
      | None | Some EmptyString => inl message_required
      | Some message =>
          if (token_count message <? 2)%nat then inl too_short
          else if ((35 <? token_count message)
                   || (1000 <? String.length message))%nat
               then inl too_long else inr message
      end
    else inl json_body_expected.
Proof. unfold validate. now rewrite json_gate. Qed.

(** A request goes on to the index exactly when its content type is
    [application/json] and its message has between 1 and 34 whitespace
    characters and at most 1000 characters; the message that goes on is the
    message of the request. *)
Theorem validate_accepts_iff (req : Request) (m : string) :
  validate req = inr m
  <-> content_type req = Some "application/json"
      /\ message req = Some m
      /\ (1 <= count_whitespace m <= 34)%nat
      /\ (String.length m <= 1000)%nat.
Proof.
  rewrite validate_steps.
  assert (T : forall s, token_count s = S (count_whitespace s)).
  { intros s. unfold token_count. induction s as [|c s IH]; simpl; [easy|].
    pose proof (split_whitespace_not_nil s) as Hne.
    destruct (is_whitespace c); simpl; [now rewrite IH|].
    destruct (split_whitespace s); [congruence | exact IH]. }
  destruct (same_text (content_type req) (Some "application/json")) eqn:C.
  - apply same_text_eq in C.
    destruct (message req) as [[|c s]|] eqn:M.
    + split; [discriminate|]. intros [_ [E [[H _] _]]].
      injection E as <-. simpl in H. lia.
    + set (msg := String c s) in *.
      destruct (token_count msg <? 2)%nat eqn:E2.
      * apply Nat.ltb_lt in E2. rewrite T in E2.
        split; [discriminate|]. intros [_ [E [[H _] _]]].
        injection E as <-. lia.
      * apply Nat.ltb_ge in E2. rewrite T in E2.
        destruct ((35 <? token_count msg) || (1000 <? String.length msg))%nat
          eqn:E3.
        -- split; [discriminate|]. intros [_ [E [[_ H1] H2]]].
           injection E as <-.
           apply orb_true_iff in E3 as [E3|E3]; apply Nat.ltb_lt in E3;
             [rewrite T in E3|]; lia.
        -- apply orb_false_iff in E3 as [E3 E4].
           apply Nat.ltb_ge in E3, E4. rewrite T in E3.
           split.
           ++ intros E. injection E as <-. repeat split; auto; lia.
           ++ intros [_ [E _]]. now injection E as ->.
    + split; [discriminate|]. intros [_ [E _]]. discriminate.
  - split; [discriminate|]. intros [E _].
    rewrite E in C. simpl in C. discriminate.
Qed.

Lemma split_normalize (WHITELIST : list string) (message : string) :
  split_whitespace (normalize WHITELIST message)
  = match filter (fun w => negb (includes WHITELIST (toLowerCase w)))
                 (split_whitespace message) with
    | [] => [EmptyString]
    | w :: ws => w :: ws
    end.
Proof.
  unfold normalize.
  destruct (filter _ (split_whitespace message)) as [|w ws] eqn:E;
    [reflexivity|].
  apply split_whitespace_join; [discriminate|].
  rewrite <- E. apply Forall_forall. intros x Hx.
  apply filter_In in Hx as [Hx _].
  pose proof (split_whitespace_tokens message) as T.
  rewrite Forall_forall in T. now apply T.
Qed.

(** The handler sends queries only for a request that passes the checks.
    A rejected request gets status 400 or 406 and no query is sent; for a
    request that goes on, the first query is a word chunk, and the response
    has status 200 or 500. *)
Theorem queries_only_after_validation
  (PROFANITY_THRESHOLD : Qc) (WHITELIST : list string)
  (semanticSplitter : string -> list string)
  (index : string -> QueryOutcome) (req : Request) (choices : list nat) :
  let run := post PROFANITY_THRESHOLD WHITELIST semanticSplitter index
                  req choices in
  match validate req with
  | inl rejection =>
      queries run = [] /\ response run = rejection
      /\ (status_of rejection = 400%nat \/ status_of rejection = 406%nat)
  | inr m =>
      (exists w rest,
          queries run = w :: rest
          /\ In w (splitTextIntoWords (normalize WHITELIST m)))
      /\ (status_of (response run) = 200%nat
          \/ status_of (response run) = 500%nat)
  end.
Proof.
  intros run. unfold run.
  destruct (validate req) as [r|m] eqn:V.
  - rewrite (post_rejected _ _ _ _ _ _ _ V). simpl.
    split; [reflexivity|]. split; [reflexivity|].
    rewrite validate_steps in V.
    destruct (same_text _ _);
      [|injection V as <-; now right].
    destruct (message req) as [[|c s]|];
      try (injection V as <-; now left).
    destruct (token_count _ <? 2)%nat; [injection V as <-; now left|].
    destruct (_ || _)%bool; [injection V as <-; now left | discriminate].
  - rewrite (post_validated _ _ _ _ _ _ _ V). split.
    + rewrite classify_queries. unfold splitTextIntoWords.
      pose proof (split_whitespace_not_nil (normalize WHITELIST m)) as Hne.
      destruct (split_whitespace (normalize WHITELIST m)) as [|w ws];
        [congruence|].
      exists w, (ws ++ splitTextIntoSemantics semanticSplitter
                         (normalize WHITELIST m)).
      split; [reflexivity | now left].
    + rewrite classify_response.
      destruct (existsb _ _); [now right|].
      unfold resolve.
      destruct (0 <? _)%nat; destruct (hd_error _) as [[x|]|]; simpl; auto.
Qed.

(** For a request that goes on, at most 35 word chunks are queried, before
    the semantic chunks.  A word chunk holds no whitespace; it is a token of
    the message that is not whitelisted, or it is the empty string, queried
    alone when every token of the message is whitelisted. *)
Theorem word_queries_bounded_and_not_whitelisted
  (PROFANITY_THRESHOLD : Qc) (WHITELIST : list string)
  (semanticSplitter : string -> list string)
  (index : string -> QueryOutcome) (req : Request) (choices : list nat)
  (m : string) :
  validate req = inr m ->
  let words := splitTextIntoWords (normalize WHITELIST m) in
  queries (post PROFANITY_THRESHOLD WHITELIST semanticSplitter index
                req choices)
  = words ++ splitTextIntoSemantics semanticSplitter (normalize WHITELIST m)
  /\ (1 <= List.length words <= 35)%nat
  /\ forall w, In w words ->
       no_whitespace w = true
       /\ ((In w (split_whitespace m) /\ ~ whitelisted WHITELIST w)
           \/ (words = [EmptyString]
               /\ Forall (whitelisted WHITELIST) (split_whitespace m))).
Proof.
  intros V words.
  rewrite (post_validated _ _ _ _ _ _ _ V), classify_queries.
  split; [reflexivity|].
  assert (Hm : (token_count m <= 35)%nat).
  { rewrite validate_steps in V.
    destruct (same_text _ _); [|discriminate].
    destruct (message req) as [[|c s]|]; try discriminate.
    destruct (token_count _ <? 2)%nat; [discriminate|].
    destruct (35 <? token_count (String c s))%nat eqn:E; [discriminate|].
    apply Nat.ltb_ge in E. simpl in V.
    destruct (1000 <? _)%nat; [discriminate|]. now injection V as <-. }
  unfold words, splitTextIntoWords. rewrite split_normalize.
  set (keep := fun w => negb (includes WHITELIST (toLowerCase w))).
  pose proof (filter_total_length keep (split_whitespace m)) as [_ Hl].
  unfold token_count in Hm.
  destruct (filter keep (split_whitespace m)) as [|w0 ws] eqn:E.
  - split; [simpl; lia|].
    intros w [<-|[]]. split; [reflexivity|]. right. split; [reflexivity|].
    apply Forall_forall. intros x Hx. unfold whitelisted.
    apply includes_In. destruct (includes WHITELIST (toLowerCase x)) eqn:I;
      [reflexivity|].
    assert (In x (filter keep (split_whitespace m)))
      by (apply filter_In; split; [exact Hx | unfold keep; now rewrite I]).
    rewrite E in H. destruct H.
  - split; [simpl in *; lia|].
    intros w Hw. rewrite <- E in Hw. apply filter_In in Hw as [Hin Hk].
    pose proof (split_whitespace_tokens m) as T.
    rewrite Forall_forall in T. split; [now apply T|].
    left. split; [exact Hin|].
    unfold whitelisted. rewrite <- includes_In.
    unfold keep in Hk. apply negb_true_iff in Hk. congruence.
Qed.

(** ** What the decision says about the index *)

Section DecisionFacts.
Variable PROFANITY_THRESHOLD : Qc.
Variable index : string -> QueryOutcome.

Lemma flagged_match_In (t : Task) (p : option string * Qc) :
  In p (flagged_match PROFANITY_THRESHOLD index t) ->
  exists v,
    match_of index (chunk t) = Some v
    /\ p = (Vector.metadata v, Vector.score v)
    /\ (threshold PROFANITY_THRESHOLD (mapper t) < Vector.score v)%Qc.
Proof.
  unfold flagged_match, exceeds.
  destruct (match_of index (chunk t)) as [v|]; [|intros []].
  destruct (greater _ _) eqn:G; [|intros []].
  intros [<-|[]]. exists v. split; [reflexivity|].
  split; [reflexivity | now apply greater_true].
Qed.

Lemma In_flagged_match (t : Task) (v : Vector.t) :
  match_of index (chunk t) = Some v ->
  (threshold PROFANITY_THRESHOLD (mapper t) < Vector.score v)%Qc ->
  In (Vector.metadata v, Vector.score v)
     (flagged_match PROFANITY_THRESHOLD index t).
Proof.
  intros M L. unfold flagged_match, exceeds. rewrite M.
  apply greater_true in L. rewrite L. now left.
Qed.

Lemma flagged_match_count (l : list Task) :
  List.length (flat_map (flagged_match PROFANITY_THRESHOLD index) l)
  = List.length (filter (exceeds PROFANITY_THRESHOLD index) l).
Proof.
  induction l as [|t l IH]; simpl; [reflexivity|].
  rewrite length_app, IH. unfold flagged_match.
  destruct (exceeds PROFANITY_THRESHOLD index t) eqn:E.
  - unfold exceeds in E.
    destruct (match_of index (chunk t)); [reflexivity | discriminate].
  - now destruct (match_of index (chunk t)).
Qed.

Lemma filter_length_perm {A : Type} (f : A -> bool) (l l' : list A) :
  Permutation l l' ->
  List.length (filter f l) = List.length (filter f l').
Proof.
  induction 1 as [|x l l' _ IH|x y l|l l' l'' _ IH1 _ IH2]; simpl.
  - reflexivity.
  - destruct (f x); simpl; now rewrite IH.
  - destruct (f x), (f y); reflexivity.
  - now rewrite IH1.
Qed.

Lemma some_flagged_match (tasks order : list Task) :
  Permutation order tasks ->
  existsb (exceeds PROFANITY_THRESHOLD index) tasks = true ->
  flat_map (flagged_match PROFANITY_THRESHOLD index) order <> [].
Proof.
  intros P H E. apply (f_equal (@List.length _)) in E.
  rewrite flagged_match_count, (filter_length_perm _ _ _ P) in E.
  apply existsb_exists in H as [t [Hin Ht]].
  assert (In t (filter (exceeds PROFANITY_THRESHOLD index) tasks))
    by (apply filter_In; auto).
  destruct (filter _ tasks); [contradiction | discriminate].
Qed.

End DecisionFacts.

(** The first element of the sorted array is the first element of the
    array that no element exceeds. *)
Lemma sort_defined_head_earliest {A : Type} (score : A -> Qc)
  (l : list A) (x : A) (rest : list A) :
  sort_defined (by_score score) l = x :: rest ->
  exists l1 l2,
    l = l1 ++ x :: l2
    /\ (forall y, In y l1 -> (score y < score x)%Qc)
    /\ (forall y, In y l2 -> (score y <= score x)%Qc).
Proof.
  revert x rest. induction l as [|z l IH] using rev_ind; intros x rest E.
  - discriminate.
  - unfold sort_defined in E. rewrite fold_left_app in E. simpl in E.
    fold (sort_defined (by_score score) l) in E.
    destruct (sort_defined (by_score score) l) as [|h hs] eqn:S.
    + apply sort_defined_nil in S. subst l. simpl in E.
      injection E as <- <-. exists [], []. split; [reflexivity|].
      split; intros y [].
    + simpl in E. rewrite by_score_neg in E.
      destruct (IH h hs eq_refl) as [l1 [l2 [-> [H1 H2]]]].
      destruct (greater (score z) (score h)) eqn:G.
      * injection E as <- <-. apply greater_true in G.
        exists (l1 ++ h :: l2), []. split; [reflexivity|].
        split; [|intros y []].
        intros y Hy. apply in_app_or in Hy as [Hy|[<-|Hy]].
        -- eapply Qclt_trans; [now apply H1 | exact G].
        -- exact G.
        -- eapply Qcle_lt_trans; [now apply H2 | exact G].
      * injection E as <- <-. apply greater_false in G.
        exists l1, (l2 ++ [z]). split; [now rewrite <- app_assoc|].
        split; [exact H1|].
        intros y Hy. apply in_app_or in Hy as [Hy|[<-|[]]];
          [now apply H2 | exact G].
Qed.

Lemma allocate_split (n : nat) (l : list (option string * Qc))
  (E1 E2 : list Flagged.t) (e : Flagged.t) :
  allocate n l = E1 ++ e :: E2 ->
  l = map content E1 ++ content e :: map content E2.
Proof.
  intros H. rewrite <- (allocate_content n l), H, map_app. reflexivity.
Qed.

(** With a flagged entry in the set, the response reports the first entry,
    in insertion order, that no entry exceeds. *)
Lemma resolve_earliest (vectorRes : list (option Vector.t))
  (l : list (option string * Qc)) :
  l <> [] ->
  exists p,
    earliest_top l p
    /\ resolve vectorRes (allocate 0 l)
       = Classified {| Json.isProfanity := true;
                       Json.score := snd p;
                       Json.flaggedFor := fst p |}.
Proof.
  intros Hne. unfold resolve.
  assert (L : (0 <? List.length (allocate 0 l))%nat = true).
  { rewrite allocate_length. destruct l; [congruence | reflexivity]. }
  rewrite L, Array_sort_head, defined_Array_from.
  destruct (sort_defined (by_score Flagged.score) (allocate 0 l))
    as [|e rest] eqn:E.
  - apply sort_defined_nil in E. rewrite E in L. discriminate.
  - apply sort_defined_head_earliest in E as [E1 [E2 [S [H1 H2]]]].
    exists (content e). split; [|reflexivity].
    exists (map content E1), (map content E2).
    split; [now apply (allocate_split 0)|].
    split; intros q Hq; apply in_map_iff in Hq as [e' [<- He']]; simpl; auto.
Qed.

Lemma classify_profane_iff (PROFANITY_THRESHOLD : Qc)
  (semanticSplitter : string -> list string)
  (index : string -> QueryOutcome) (text : string) (choices : list nat) :
  profane (response (classify PROFANITY_THRESHOLD semanticSplitter index
                              text choices)) = true
  <-> existsb (throws index) (tasks_of semanticSplitter text) = false
      /\ existsb (exceeds PROFANITY_THRESHOLD index)
                 (tasks_of semanticSplitter text) = true.
Proof.
  rewrite classify_response.
  destruct (existsb (throws index) _); [simpl; intuition congruence|].
  pose proof (completion_order_perm choices
                (tasks_of semanticSplitter text)) as P.
  destruct (existsb (exceeds PROFANITY_THRESHOLD index) _) eqn:E.
  - pose proof (some_flagged_match _ _ _ _ P E) as Hne.
    assert (Hne' : allocate 0
                     (flat_map (flagged_match PROFANITY_THRESHOLD index)
                        (completion_order choices
                           (tasks_of semanticSplitter text))) <> []).
    { intros H. apply (f_equal (@List.length _)) in H.
      rewrite allocate_length in H. destruct (flat_map _ _); auto.
      discriminate. }
    destruct (resolve_flagged (map (value_of index)
                                   (tasks_of semanticSplitter text))
                _ Hne') as [e [_ [_ ->]]].
    simpl. intuition.
  - rewrite (no_flagged_match _ _ _ _ P E). simpl.
    rewrite resolve_not_profane. intuition congruence.
Qed.

(** For a request that goes on, the response is profane exactly when no
    query throws and the match of some chunk scores strictly above the
    threshold of the chunk, in whatever order the queries complete. *)
Theorem profane_iff_some_chunk_exceeds
  (PROFANITY_THRESHOLD : Qc) (WHITELIST : list string)
  (semanticSplitter : string -> list string)
  (index : string -> QueryOutcome) (req : Request) (choices : list nat)
  (m : string) :
  validate req = inr m ->
  let tasks := tasks_of semanticSplitter (normalize WHITELIST m) in
  profane (response (post PROFANITY_THRESHOLD WHITELIST semanticSplitter
                          index req choices)) = true
  <-> existsb (throws index) tasks = false
      /\ existsb (exceeds PROFANITY_THRESHOLD index) tasks = true.
Proof.
  intros V tasks. rewrite (post_validated _ _ _ _ _ _ _ V).
  apply classify_profane_iff.
Qed.

Lemma profane_resolve (PROFANITY_THRESHOLD : Qc)
  (semanticSplitter : string -> list string)
  (index : string -> QueryOutcome) (text : string) (choices : list nat) :
  profane (response (classify PROFANITY_THRESHOLD semanticSplitter index
                              text choices)) = true ->
  let flagged := flat_map (flagged_match PROFANITY_THRESHOLD index)
                   (completion_order choices
                      (tasks_of semanticSplitter text)) in
  flagged <> []
  /\ response (classify PROFANITY_THRESHOLD semanticSplitter index
                        text choices)
     = resolve (map (value_of index) (tasks_of semanticSplitter text))
               (allocate 0 flagged).
Proof.
  intros H flagged. rewrite classify_response in H |- *.
  destruct (existsb (throws index) _); [discriminate|].
  fold flagged in H |- *. split; [|reflexivity].
  intros E. rewrite E in H. simpl in H.
  rewrite resolve_not_profane in H. discriminate.
Qed.

(** A profane response reports a match of the index: the text and the
    score of the match of some chunk of the message that scores strictly
    above the threshold of the chunk, and no such match scores more. *)
Theorem profane_reports_highest_flagged_match
  (PROFANITY_THRESHOLD : Qc) (WHITELIST : list string)
  (semanticSplitter : string -> list string)
  (index : string -> QueryOutcome) (req : Request) (choices : list nat)
  (m : string) :
  validate req = inr m ->
  let tasks := tasks_of semanticSplitter (normalize WHITELIST m) in
  let r := response (post PROFANITY_THRESHOLD WHITELIST semanticSplitter
                          index req choices) in
  profane r = true ->
  exists t v,
    In t tasks
    /\ match_of index (chunk t) = Some v
    /\ (threshold PROFANITY_THRESHOLD (mapper t) < Vector.score v)%Qc
    /\ r = Classified {| Json.isProfanity := true;
                         Json.score := Vector.score v;
                         Json.flaggedFor := Vector.metadata v |}
    /\ forall t' v',
        In t' tasks ->
        match_of index (chunk t') = Some v' ->
        (threshold PROFANITY_THRESHOLD (mapper t') < Vector.score v')%Qc ->
        (Vector.score v' <= Vector.score v)%Qc.
Proof.
  intros V tasks r. unfold r.
  rewrite (post_validated _ _ _ _ _ _ _ V). intros H.
  destruct (profane_resolve _ _ _ _ _ H) as [Hne ->].
  fold tasks in Hne |- *.
  pose proof (completion_order_perm choices tasks) as P.
  set (flagged := flat_map (flagged_match PROFANITY_THRESHOLD index)
                    (completion_order choices tasks)) in *.
  assert (Hne' : allocate 0 flagged <> []).
  { intros E. apply (f_equal (@List.length _)) in E.
    rewrite allocate_length in E. destruct flagged; auto. discriminate. }
  destruct (resolve_flagged (map (value_of index) tasks) _ Hne')
    as [e [Hin [Hmax ->]]].
  apply allocate_In in Hin. unfold flagged in Hin.
  apply in_flat_map in Hin as [t [Ht Hp]].
  apply flagged_match_In in Hp as [v [Hv [Hc Hlt]]].
  exists t, v. split; [now apply (Permutation_in _ P)|].
  split; [exact Hv|]. split; [exact Hlt|].
  unfold content in Hc. injection Hc as Htext Hscore.
  rewrite Htext, Hscore. split; [reflexivity|].
  intros t' v' Ht' Hv' Hlt'.
  assert (Hin' : In (Vector.metadata v', Vector.score v') flagged).
  { apply in_flat_map. exists t'.
    split; [now apply (Permutation_in _ (Permutation_sym P))|].
    now apply In_flagged_match. }
  destruct (In_allocate 0 _ _ Hin') as [e' [He' Hc']].
  specialize (Hmax e' He'). unfold content in Hc'.
  injection Hc' as _ Hs. now rewrite Hs, Hscore in Hmax.
Qed.

(** When several flagged matches share the greatest score, a profane
    response reports the one whose query completed first: the matches
    flagged before it score strictly less, the ones flagged after it at most
    as much. *)
Theorem profane_reports_first_completed_top_match
  (PROFANITY_THRESHOLD : Qc) (WHITELIST : list string)
  (semanticSplitter : string -> list string)
  (index : string -> QueryOutcome) (req : Request) (choices : list nat)
  (m : string) :
  validate req = inr m ->
  let tasks := tasks_of semanticSplitter (normalize WHITELIST m) in
  let r := response (post PROFANITY_THRESHOLD WHITELIST semanticSplitter
                          index req choices) in
  profane r = true ->
  exists p,
    earliest_top
      (flat_map (flagged_match PROFANITY_THRESHOLD index)
                (completion_order choices tasks)) p
    /\ r = Classified {| Json.isProfanity := true;
                         Json.score := snd p;
                         Json.flaggedFor := fst p |}.
Proof.
  intros V tasks r. unfold r.
  rewrite (post_validated _ _ _ _ _ _ _ V). intros H.
  destruct (profane_resolve _ _ _ _ _ H) as [Hne ->].
  now apply resolve_earliest.
Qed.

(** A clean response has no [flaggedFor], and its score is zero or the
    score of a semantic chunk: it is never negative and never above
    [PROFANITY_THRESHOLD] unless it is zero. *)
Theorem clean_score_between_zero_and_threshold
  (PROFANITY_THRESHOLD : Qc) (WHITELIST : list string)
  (semanticSplitter : string -> list string)
  (index : string -> QueryOutcome) (req : Request) (choices : list nat)
  (m : string) (body : Json.t) :
  validate req = inr m ->
  response (post PROFANITY_THRESHOLD WHITELIST semanticSplitter index
                 req choices) = Classified body ->
  Json.isProfanity body = false ->
  Json.flaggedFor body = None
  /\ (Q2Qc 0 <= Json.score body)%Qc
  /\ (Json.score body = Q2Qc 0
      \/ (Json.score body <= PROFANITY_THRESHOLD)%Qc).
Proof.
  intros V R Hclean.
  rewrite (post_validated _ _ _ _ _ _ _ V), classify_response in R.
  set (tasks := tasks_of semanticSplitter (normalize WHITELIST m)) in *.
  destruct (existsb (throws index) tasks); [discriminate|].
  pose proof (completion_order_perm choices tasks) as P.
  destruct (existsb (exceeds PROFANITY_THRESHOLD index) tasks) eqn:E.
  - exfalso.
    pose proof (some_flagged_match _ _ _ _ P E) as Hne.
    assert (Hne' : allocate 0
                     (flat_map (flagged_match PROFANITY_THRESHOLD index)
                        (completion_order choices tasks)) <> []).
    { intros H. apply (f_equal (@List.length _)) in H.
      rewrite allocate_length in H. destruct (flat_map _ _); auto.
      discriminate. }
    destruct (resolve_flagged (map (value_of index) tasks) _ Hne')
      as [e [_ [_ R']]].
    rewrite R' in R. injection R as <-. discriminate.
  - rewrite (no_flagged_match _ _ _ _ P E) in R. simpl in R.
    pose proof (values_defined semanticSplitter index
                  (normalize WHITELIST m)) as D.
    fold tasks in D.
    destruct (resolve_clean _ D) as [v [Hin [Hmax R']]].
    rewrite R' in R. injection R as <-. simpl.
    split; [reflexivity|].
    assert (Hword : existsb (fun t => negb (semantic t)) tasks = true).
    { unfold tasks.
      destruct (tasks_of_first semanticSplitter (normalize WHITELIST m))
        as [w [rest ->]]. reflexivity. }
    split.
    + assert (Hz : In (Q2Qc 0)
                      (map Vector.score
                           (defined (map (value_of index) tasks))))
        by (apply reported_scores; auto).
      apply in_map_iff in Hz as [v0 [<- Hv0]]. now apply Hmax.
    + apply (in_map Vector.score), reported_scores in Hin.
      destruct Hin as [[Hz _]|Hin]; [now left | right].
      unfold observed_scores in Hin.
      apply in_flat_map in Hin as [t [Ht Hs]].
      apply filter_In in Ht as [Ht Hsem].
      assert (Ex : exceeds PROFANITY_THRESHOLD index t = false).
      { destruct (exceeds PROFANITY_THRESHOLD index t) eqn:X; auto.
        assert (existsb (exceeds PROFANITY_THRESHOLD index) tasks = true)
          by (apply existsb_exists; eauto).
        congruence. }
      unfold exceeds in Ex. unfold semantic in Hsem.
      destruct (match_of index (chunk t)) as [v'|]; [|destruct Hs].
      destruct Hs as [<-|[]].
      destruct (mapper t); [discriminate|].
      now apply greater_false in Ex.
Qed.

(** Raising [PROFANITY_THRESHOLD] never flags more: a request that is
    profane under a threshold is profane under every lower one, in whatever
    orders the queries complete. *)
Theorem lower_threshold_keeps_profane
  (T T' : Qc) (WHITELIST : list string)
  (semanticSplitter : string -> list string)
  (index : string -> QueryOutcome) (req : Request)
  (choices choices' : list nat) :
  (T <= T')%Qc ->
  profane (response (post T' WHITELIST semanticSplitter index
                          req choices')) = true ->
  profane (response (post T WHITELIST semanticSplitter index
                          req choices)) = true.
Proof.
  intros Hle. unfold post.
  destruct (validate req) as [r|m]; [auto|].
  rewrite !classify_profane_iff. intros [Hthrow Hex].
  split; [exact Hthrow|].
  apply existsb_exists in Hex as [t [Ht Hx]].
  apply existsb_exists. exists t. split; [exact Ht|].
  unfold exceeds in *.
  destruct (match_of index (chunk t)) as [v|]; [|discriminate].
  apply greater_true in Hx. apply greater_true.
  destruct (mapper t); simpl in *; [exact Hx|].
  eapply Qcle_lt_trans; eauto.
Qed.

Lemma allocate_refs (n : nat) (l : list (option string * Qc)) :
  map Flagged.ref (allocate n l) = seq n (List.length l).
Proof.
  revert n. induction l as [|[t s] l IH]; intros n; simpl;
    [reflexivity | now rewrite IH].
Qed.

(** Once the queries of a text have completed, the array of values has one
    element per chunk, and the set has one entry per chunk whose match
    exceeds its threshold, two chunks with the same match included: its
    entries are distinct objects, numbered in the order they were added. *)
Theorem flagged_set_has_one_entry_per_flagged_chunk
  (PROFANITY_THRESHOLD : Qc) (semanticSplitter : string -> list string)
  (index : string -> QueryOutcome) (text : string) (choices : list nat)
  (vectorRes : list (option Vector.t)) (st : Store) :
  let tasks := tasks_of semanticSplitter text in
  Promise_all PROFANITY_THRESHOLD index tasks choices
  = Some (vectorRes, st) ->
  List.length vectorRes = List.length tasks
  /\ List.length (flaggedFor st)
     = List.length (filter (exceeds PROFANITY_THRESHOLD index) tasks)
  /\ map Flagged.ref (flaggedFor st)
     = seq 0 (List.length (flaggedFor st))
  /\ NoDup (flaggedFor st).
Proof.
  intros tasks P.
  pose proof (Promise_all_spec PROFANITY_THRESHOLD index
                (splitTextIntoWords text)
                (splitTextIntoSemantics semanticSplitter text) choices) as S.
  simpl in S. fold (tasks_of semanticSplitter text) in S. fold tasks in S.
  destruct (existsb (throws index) tasks); [congruence|].
  destruct S as [st' [S F]]. rewrite S in P. injection P as <- <-.
  rewrite F. split; [apply length_map|].
  assert (R : map Flagged.ref
                (allocate 0
                   (flat_map (flagged_match PROFANITY_THRESHOLD index)
                      (completion_order choices tasks)))
              = seq 0 (List.length
                         (allocate 0
                            (flat_map
                               (flagged_match PROFANITY_THRESHOLD index)
                               (completion_order choices tasks)))))
    by (now rewrite allocate_refs, allocate_length).
  split; [|split; [exact R|]].
  - rewrite allocate_length, flagged_match_count.
    apply filter_length_perm, completion_order_perm.
  - apply (NoDup_map_inv Flagged.ref). rewrite R. apply seq_NoDup.
Qed.

Lemma normalize_all_whitelisted_empty (WHITELIST : list string)
  (m : string) :
  Forall (whitelisted WHITELIST) (split_whitespace m) ->
  normalize WHITELIST m = EmptyString.
Proof.
  intros H. unfold normalize.
  replace (filter _ (split_whitespace m)) with (@nil string); [reflexivity|].
  symmetry. induction H as [|w ws Hw _ IH]; simpl; [reflexivity|].
  apply includes_In in Hw. now rewrite Hw.
Qed.

(** When every token of the message is whitelisted, the filtered message is
    empty and the handler sends one query, for the empty string.  The
    response is then decided by that query alone: the 500 response if it
    throws, a profane response if its match scores above 0.95, a clean
    response with score zero otherwise. *)
Theorem all_whitelisted_queries_the_empty_string
  (PROFANITY_THRESHOLD : Qc) (WHITELIST : list string)
  (semanticSplitter : string -> list string)
  (index : string -> QueryOutcome) (req : Request) (choices : list nat)
  (m : string) :
  validate req = inr m ->
  Forall (whitelisted WHITELIST) (split_whitespace m) ->
  post PROFANITY_THRESHOLD WHITELIST semanticSplitter index req choices
  = {| queries := [EmptyString];
       response :=
         match index EmptyString with
         | Threw => something_went_wrong
         | Returned vectors =>
             match hd_error vectors with
             | Some v =>
                 if greater (Vector.score v) (Q2Qc (95 # 100))
                 then Classified {| Json.isProfanity := true;
                                    Json.score := Vector.score v;
                                    Json.flaggedFor := Vector.metadata v |}
                 else Classified {| Json.isProfanity := false;
                                    Json.score := Q2Qc 0;
                                    Json.flaggedFor := None |}
             | None => Classified {| Json.isProfanity := false;
                                     Json.score := Q2Qc 0;
                                     Json.flaggedFor := None |}
             end
         end |}.
Proof.
  intros V H.
  rewrite (post_validated _ _ _ _ _ _ _ V),
    (normalize_all_whitelisted_empty _ _ H).
  unfold classify, Promise_all.
  change (promises (splitTextIntoWords EmptyString)
            (splitTextIntoSemantics semanticSplitter EmptyString))
    with [{| position := 0; mapper := WordMapper; chunk := EmptyString |}].
  set (t := {| position := 0; mapper := WordMapper; chunk := EmptyString |}).
  assert (Ho : completion_order choices [t] = [t])
    by (apply Permutation_length_1_inv, Permutation_sym,
          completion_order_perm).
  rewrite Ho. f_equal. cbn [settle chunk mapper position t resume].
  destruct (index EmptyString) as [|vectors]; [reflexivity|].
  unfold word_callback.
  destruct (hd_error vectors) as [v|]; [|reflexivity].
  destruct (greater (Vector.score v) (Q2Qc (95 # 100))); reflexivity.
Qed.

(** ** The sort of the handler *)

Lemma defined_perm {A : Type} (l : list (option A)) :
  Permutation
    (map Some (defined l)
       ++ repeat None (List.length l - List.length (defined l)))
    l.
Proof.
  assert (L : forall l : list (option A),
             (List.length (defined l) <= List.length l)%nat).
  { intros l0. induction l0 as [|[x|] l0 IH]; simpl; lia. }
  induction l as [|[x|] l IH].
  - reflexivity.
  - change (Permutation
              (Some x :: map Some (defined l)
                 ++ repeat None (S (List.length l)
                                 - S (List.length (defined l))))
              (Some x :: l)).
    rewrite Nat.sub_succ. now apply perm_skip.
  - specialize (L l).
    change (Permutation
              (map Some (defined l)
                 ++ repeat None (S (List.length l)
                                 - List.length (defined l)))
              (None :: l)).
    replace (S (List.length l) - List.length (defined l))%nat
      with (S (List.length l - List.length (defined l))) by lia.
    cbn [repeat]. apply Permutation_sym, Permutation_cons_app.
    now apply Permutation_sym.
Qed.

(** Sorting an array by score with the comparator of the handler keeps its
    elements, puts the defined ones first, in non-increasing order of score,
    and the undefined ones last. *)
Theorem Array_sort_by_score_descending {A : Type} (score : A -> Qc)
  (l : list (option A)) :
  Permutation (Array_sort (by_score score) l) l
  /\ exists sorted k,
      Array_sort (by_score score) l = map Some sorted ++ repeat None k
      /\ StronglySorted (fun a b => (score b <= score a)%Qc) sorted.
Proof.
  split.
  - unfold Array_sort.
    eapply Permutation_trans; [|apply defined_perm].
    apply Permutation_app_tail, Permutation_map, sort_defined_perm.
  - exists (sort_defined (by_score score) (defined l)),
      (List.length l - List.length (defined l))%nat.
    split; [reflexivity | apply sort_defined_sorted].
Qed.

(** * Properties of the seeding script *)

Lemma STEP_pos : (0 < STEP)%nat.
Proof. unfold STEP. lia. Qed.

Lemma slice_step {A : Type} (i : nat) (l : list A) :
  slice i (i + STEP) l = firstn STEP (skipn i l).
Proof. unfold slice. f_equal. lia. Qed.

Lemma map_index_shift {A B : Type} (f : A -> nat -> B) (i j : nat)
  (l : list A) :
  map_index (fun x b => f x (i + b)%nat) j l = map_index f (i + j) l.
Proof.
  revert j. induction l as [|x l IH]; intros j; simpl; [reflexivity|].
  now rewrite IH, Nat.add_succ_r.
Qed.

Lemma formatted_records (i : nat) (chunk : list Row.t) :
  formatted i chunk = records_from i chunk.
Proof.
  unfold formatted, records_from.
  rewrite (map_index_shift
             (fun row k => {| Upsert.data := Row.text row;
                              Upsert.id := k;
                              Upsert.metadata := Row.text row |}) i 0).
  now rewrite Nat.add_0_r.
Qed.

Lemma records_from_app (k : nat) (a b : list Row.t) :
  records_from k (a ++ b)
  = records_from k a ++ records_from (k + List.length a) b.
Proof.
  unfold records_from. revert k.
  induction a as [|x a IH]; intros k; simpl.
  - now rewrite Nat.add_0_r.
  - rewrite IH. do 2 f_equal. f_equal. lia.
Qed.

Lemma records_from_length (k : nat) (rows : list Row.t) :
  List.length (records_from k rows) = List.length rows.
Proof.
  unfold records_from. revert k.
  induction rows as [|x rows IH]; intros k; simpl; auto.
Qed.

Lemma records_from_ids (k : nat) (rows : list Row.t) :
  map Upsert.id (records_from k rows) = seq k (List.length rows).
Proof.
  unfold records_from. revert k.
  induction rows as [|x rows IH]; intros k; simpl;
    [reflexivity | now rewrite IH].
Qed.

Lemma records_from_texts (k : nat) (rows : list Row.t) :
  map Upsert.data (records_from k rows) = map Row.text rows
  /\ map Upsert.metadata (records_from k rows) = map Row.text rows.
Proof.
  unfold records_from. revert k.
  induction rows as [|x rows IH]; intros k; simpl; [auto|].
  destruct (IH (S k)) as [-> ->]. auto.
Qed.

Lemma seed_loop_round (upsert : list Upsert.t -> bool) (data : list Row.t)
  (rounds i : nat) :
  seed_loop upsert data (S rounds) i
  = if (i <? List.length data)%nat then
      if upsert (formatted i (slice i (i + STEP) data)) then
        (formatted i (slice i (i + STEP) data)
           :: fst (seed_loop upsert data rounds (i + STEP)),
         snd (seed_loop upsert data rounds (i + STEP)))
      else ([formatted i (slice i (i + STEP) data)], UpsertThrew)
    else ([], Seeded).
Proof.
  simpl. destruct (i <? List.length data)%nat; [|reflexivity].
  destruct (upsert _); [|reflexivity].
  now destruct (seed_loop upsert data rounds (i + STEP)).
Qed.

Lemma seed_loop_done (upsert : list Upsert.t -> bool) (data : list Row.t)
  (rounds i : nat) :
  (List.length data <= i)%nat ->
  seed_loop upsert data rounds i = ([], Seeded).
Proof.
  intros H. apply Nat.ltb_ge in H.
  destruct rounds; simpl; now rewrite H.
Qed.

(** The loop on an index that accepts every batch, with rounds enough *)
Lemma seed_loop_accepting (data : list Row.t) (rounds i : nat) :
  (List.length data <= i + rounds * STEP)%nat ->
  snd (seed_loop accepts_all data rounds i) = Seeded
  /\ List.concat (fst (seed_loop accepts_all data rounds i))
     = records_from i (skipn i data)
  /\ forall k,
      nth_error (fst (seed_loop accepts_all data rounds i)) k
      = if (i + STEP * k <? List.length data)%nat
        then Some (records_from (i + STEP * k)
                     (slice (i + STEP * k) (i + STEP * k + STEP) data))
        else None.
Proof.
  pose proof STEP_pos as Hpos.
  revert i. induction rounds as [|r IH]; intros i H.
  - rewrite seed_loop_done by lia. cbn [fst snd List.concat].
    rewrite skipn_all2 by lia. split; [reflexivity|].
    split; [reflexivity|]. intros k.
    replace (i + STEP * k <? List.length data)%nat with false
      by (symmetry; apply Nat.ltb_ge; lia).
    now destruct k.
  - rewrite seed_loop_round.
    destruct (i <? List.length data)%nat eqn:E.
    + apply Nat.ltb_lt in E.
      change (accepts_all (formatted i (slice i (i + STEP) data)))
        with true.
      cbn [fst snd].
      destruct (IH (i + STEP)%nat) as [He [Hc Hn]]; [lia|].
      split; [exact He|]. split.
      * rewrite concat_cons, Hc, formatted_records, slice_step.
        transitivity
          (records_from i (firstn STEP (skipn i data)
                             ++ skipn STEP (skipn i data)));
          [|now rewrite firstn_skipn].
        rewrite records_from_app, skipn_skipn, (Nat.add_comm STEP i).
        f_equal.
        destruct (Nat.le_gt_cases (i + STEP) (List.length data)) as [L|L].
        -- rewrite length_firstn, length_skipn.
           f_equal. lia.
        -- now rewrite skipn_all2 by lia.
      * intros [|k].
        -- rewrite Nat.mul_0_r, Nat.add_0_r.
           apply Nat.ltb_lt in E. rewrite E.
           cbn [nth_error]. now rewrite formatted_records.
        -- cbn [nth_error]. rewrite Hn.
           replace (i + STEP + STEP * k)%nat with (i + STEP * S k)%nat
             by lia.
           reflexivity.
    + apply Nat.ltb_ge in E. cbn [fst snd List.concat].
      rewrite skipn_all2 by lia.
      split; [reflexivity|]. split; [reflexivity|]. intros k.
      replace (i + STEP * k <? List.length data)%nat with false
        by (symmetry; apply Nat.ltb_ge; lia).
      now destruct k.
Qed.

(** The loop on any index, from the loop on one that accepts every batch *)
Lemma seed_loop_until_throw (upsert : list Upsert.t -> bool)
  (data : list Row.t) (rounds i : nat) :
  seed_loop upsert data rounds i
  = (until_throw upsert (fst (seed_loop accepts_all data rounds i)),
     if forallb upsert (fst (seed_loop accepts_all data rounds i))
     then snd (seed_loop accepts_all data rounds i) else UpsertThrew).
Proof.
  revert i. induction rounds as [|r IH]; intros i.
  - simpl. now destruct (i <? List.length data)%nat.
  - rewrite !seed_loop_round.
    destruct (i <? List.length data)%nat; [|reflexivity].
    change (accepts_all (formatted i (slice i (i + STEP) data)))
      with true.
    cbn [fst snd until_throw forallb].
    destruct (upsert (formatted i (slice i (i + STEP) data)));
      [|reflexivity].
    rewrite (IH (i + STEP)%nat). reflexivity.
Qed.

Lemma seed_accepting_rounds (data : list Row.t) (rounds : nat) :
  (List.length data <= rounds * STEP)%nat ->
  seed_loop accepts_all data rounds 0 = seed accepts_all data.
Proof.
  intros H. unfold seed.
  assert (H' : (List.length data <= 0 + List.length data * STEP)%nat)
    by (pose proof STEP_pos; nia).
  destruct (seed_loop_accepting data rounds 0 H) as [E1 [_ N1]].
  destruct (seed_loop_accepting data (List.length data) 0 H')
    as [E2 [_ N2]].
  destruct (seed_loop accepts_all data rounds 0) as [c1 e1].
  destruct (seed_loop accepts_all data (List.length data) 0) as [c2 e2].
  simpl in *. subst. f_equal.
  apply nth_error_ext. intros k. now rewrite N1, N2.
Qed.

(** On an index that accepts every batch, [seed] leaves its loop having
    sent every row exactly once, in the order of the file: the row at
    position [k] goes with [id] [k], its text as [data] and as the text of
    the metadata.  Rows with the same text get different ids. *)
Theorem seed_sends_every_row_once (data : list Row.t) :
  let sent := List.concat (fst (seed accepts_all data)) in
  snd (seed accepts_all data) = Seeded
  /\ sent = records_from 0 data
  /\ map Upsert.id sent = seq 0 (List.length data)
  /\ map Upsert.data sent = map Row.text data
  /\ map Upsert.metadata sent = map Row.text data.
Proof.
  intros sent. unfold sent, seed.
  assert (H : (List.length data <= 0 + List.length data * STEP)%nat)
    by (pose proof STEP_pos; nia).
  destruct (seed_loop_accepting data (List.length data) 0 H)
    as [He [Hc _]].
  rewrite Hc. simpl skipn.
  split; [exact He|]. split; [reflexivity|].
  split; [apply records_from_ids|]. apply records_from_texts.
Qed.

(** The batches of [seed]: batch [k] holds the rows from position [30 k]
    on, up to thirty of them, with their positions as ids; there are
    [(n + 29) / 30] batches for [n] rows, none for an empty file, and no
    batch is empty or holds more than thirty records. *)
Theorem seed_batches_of_thirty (data : list Row.t) (k : nat) :
  let calls := fst (seed accepts_all data) in
  nth_error calls k
  = (if (30 * k <? List.length data)%nat
     then Some (records_from (30 * k) (slice (30 * k) (30 * k + 30) data))
     else None)
  /\ List.length calls = ((List.length data + 29) / 30)%nat
  /\ Forall (fun batch => (1 <= List.length batch <= 30)%nat) calls.
Proof.
  intros calls. unfold calls, seed.
  assert (H : (List.length data <= 0 + List.length data * STEP)%nat)
    by (pose proof STEP_pos; nia).
  destruct (seed_loop_accepting data (List.length data) 0 H)
    as [_ [_ Hn]].
  set (cs := fst (seed_loop accepts_all data (List.length data) 0)) in *.
  assert (N : forall j,
             nth_error cs j
             = if (30 * j <? List.length data)%nat
               then Some (records_from (30 * j)
                            (slice (30 * j) (30 * j + 30) data))
               else None)
    by (intros j; apply (Hn j)).
  split; [apply N|]. split.
  - set (q := ((List.length data + 29) / 30)%nat).
    pose proof (Nat.div_mod_eq (List.length data + 29) 30) as D.
    pose proof (Nat.mod_upper_bound (List.length data + 29) 30) as U.
    fold q in D.
    assert (Hq : (List.length cs <= q)%nat).
    { apply nth_error_None. rewrite N.
      replace (30 * q <? List.length data)%nat with false; [reflexivity|].
      symmetry. apply Nat.ltb_ge. lia. }
    destruct q as [|q']; [lia|].
    assert (Hq' : nth_error cs q' <> None).
    { rewrite N.
      replace (30 * q' <? List.length data)%nat with true; [discriminate|].
      symmetry. apply Nat.ltb_lt. lia. }
    apply nth_error_Some in Hq'. lia.
  - apply Forall_forall. intros batch Hb.
    apply In_nth_error in Hb as [j Hj]. rewrite N in Hj.
    destruct (30 * j <? List.length data)%nat eqn:E; [|discriminate].
    apply Nat.ltb_lt in E. injection Hj as <-.
    rewrite records_from_length. unfold slice.
    rewrite length_firstn, length_skipn. lia.
Qed.

(** When [index.upsert] throws for a batch, [seed] stops there: the calls
    made are the batches up to that one, that one included, and the later
    rows are never sent.  [seed] leaves its loop exactly when no batch
    throws. *)
Theorem seed_stops_at_first_throw (upsert : list Upsert.t -> bool)
  (data : list Row.t) :
  let batches := fst (seed accepts_all data) in
  seed upsert data
  = (until_throw upsert batches,
     if forallb upsert batches then Seeded else UpsertThrew).
Proof.
  intros batches. unfold batches, seed.
  rewrite (seed_loop_until_throw upsert data (List.length data) 0).
  assert (H : (List.length data <= 0 + List.length data * STEP)%nat)
    by (pose proof STEP_pos; nia).
  destruct (seed_loop_accepting data (List.length data) 0 H) as [He _].
  now rewrite He.
Qed.

Lemma seed_loop_still_running (data : list Row.t) (rounds i : nat) :
  (i + rounds * STEP < List.length data)%nat ->
  snd (seed_loop accepts_all data rounds i) = StillRunning.
Proof.
  revert i. induction rounds as [|r IH]; intros i H.
  - simpl. replace (i <? List.length data)%nat with true; [reflexivity|].
    symmetry. apply Nat.ltb_lt. lia.
  - rewrite seed_loop_round.
    replace (i <? List.length data)%nat with true
      by (symmetry; apply Nat.ltb_lt; lia).
    change (accepts_all (formatted i (slice i (i + STEP) data))) with true.
    cbn [snd]. apply IH. lia.
Qed.

(** The loop of [seed] makes one round per batch: thirty rows per round
    are enough rounds to leave it, whatever the index does, and fewer are
    not on an index that accepts every batch. *)
Theorem seed_loop_ends_after_one_round_per_batch
  (upsert : list Upsert.t -> bool) (data : list Row.t) (rounds : nat) :
  ((List.length data <= rounds * 30)%nat ->
   seed_loop upsert data rounds 0 = seed upsert data
   /\ snd (seed upsert data) <> StillRunning)
  /\ ((rounds * 30 < List.length data)%nat ->
      snd (seed_loop accepts_all data rounds 0) = StillRunning).
Proof.
  split.
  - intros H. split.
    + unfold seed at 1.
      rewrite (seed_loop_until_throw upsert data rounds 0),
        (seed_loop_until_throw upsert data (List.length data) 0).
      fold (seed accepts_all data).
      now rewrite (seed_accepting_rounds data rounds H).
    + unfold seed.
      rewrite (seed_loop_until_throw upsert data (List.length data) 0).
      assert (H' : (List.length data <= 0 + List.length data * STEP)%nat)
        by (pose proof STEP_pos; nia).
      destruct (seed_loop_accepting data (List.length data) 0 H')
        as [He _].
      cbn [snd]. rewrite He. now destruct (forallb _ _).
  - intros H. now apply seed_loop_still_running.
Qed.

Lemma seed_loop_ends_after_one_round_per_batch_witness :
  (List.length sample_rows <= 3 * 30)%nat
  /\ seed_loop rejects_second_batch sample_rows 3 0
     = seed rejects_second_batch sample_rows
  /\ (2 * 30 < List.length sample_rows)%nat
  /\ snd (seed_loop accepts_all sample_rows 2 0) = StillRunning.
Proof.
  split; [vm_compute; lia|]. split.
  - apply (seed_loop_ends_after_one_round_per_batch
             rejects_second_batch sample_rows 3). vm_compute; lia.
  - split; [vm_compute; lia|].
    apply (seed_loop_ends_after_one_round_per_batch
             accepts_all sample_rows 2). vm_compute; lia.
Defined.

(** * The further properties on sample requests *)

Lemma validate_accepts_iff_witness :
  validate (json "hello world") = inr "hello world".
Proof.
  apply (validate_accepts_iff (json "hello world") "hello world").
  repeat split; vm_compute; lia.
Defined.

Lemma word_queries_bounded_and_not_whitelisted_witness :
  validate (json "black darn") = inr "black darn"
  /\ queries (sample_post sample_index (json "black darn") [])
     = splitTextIntoWords (normalize sample_whitelist "black darn")
         ++ splitTextIntoSemantics one_window
              (normalize sample_whitelist "black darn").
Proof.
  split; [reflexivity|].
  apply (word_queries_bounded_and_not_whitelisted
           sample_threshold sample_whitelist one_window sample_index
           (json "black darn") [] "black darn").
  reflexivity.
Defined.

Lemma profane_iff_some_chunk_exceeds_witness :
  validate (json "darn heck") = inr "darn heck"
  /\ existsb (throws sample_index) (sample_tasks "darn heck") = false
  /\ existsb (exceeds sample_threshold sample_index)
             (sample_tasks "darn heck") = true
  /\ profane (response (sample_post sample_index (json "darn heck")
                                    [1%nat])) = true.
Proof.
  split; [reflexivity|]. split; [reflexivity|]. split; [reflexivity|].
  apply (profane_iff_some_chunk_exceeds
           sample_threshold sample_whitelist one_window sample_index
           (json "darn heck") [1%nat] "darn heck");
    [reflexivity | split; reflexivity].
Defined.

Lemma profane_reports_highest_flagged_match_witness :
  validate (json "darn heck") = inr "darn heck"
  /\ profane (response (sample_post sample_index (json "darn heck") []))
     = true
  /\ exists t v,
      In t (sample_tasks "darn heck")
      /\ match_of sample_index (chunk t) = Some v
      /\ response (sample_post sample_index (json "darn heck") [])
         = Classified {| Json.isProfanity := true;
                         Json.score := Vector.score v;
                         Json.flaggedFor := Vector.metadata v |}.
Proof.
  split; [reflexivity|]. split; [reflexivity|].
  destruct (profane_reports_highest_flagged_match
              sample_threshold sample_whitelist one_window sample_index
              (json "darn heck") [] "darn heck" eq_refl eq_refl)
    as [t [v [Ht [Hv [_ [R _]]]]]].
  exists t, v. split; [exact Ht|]. split; [exact Hv | exact R].
Defined.

Lemma profane_reports_first_completed_top_match_witness :
  validate (json "darn heck") = inr "darn heck"
  /\ profane (response (sample_post sample_index (json "darn heck")
                                    [1%nat])) = true
  /\ exists p,
      earliest_top
        (flat_map (flagged_match sample_threshold sample_index)
                  (completion_order [1%nat] (sample_tasks "darn heck"))) p
      /\ response (sample_post sample_index (json "darn heck") [1%nat])
         = Classified {| Json.isProfanity := true;
                         Json.score := snd p;
                         Json.flaggedFor := fst p |}.
Proof.
  split; [reflexivity|]. split; [reflexivity|].
  apply (profane_reports_first_completed_top_match
           sample_threshold sample_whitelist one_window sample_index
           (json "darn heck") [1%nat] "darn heck"); reflexivity.
Defined.

Lemma clean_score_between_zero_and_threshold_witness :
  validate (json "hello world") = inr "hello world"
  /\ (Q2Qc 0 <= Q2Qc (1 # 2))%Qc
  /\ (Q2Qc (1 # 2) = Q2Qc 0 \/ (Q2Qc (1 # 2) <= sample_threshold)%Qc).
Proof.
  split; [reflexivity|].
  apply (clean_score_between_zero_and_threshold
           sample_threshold sample_whitelist one_window sample_index
           (json "hello world") [] "hello world"
           {| Json.isProfanity := false;
              Json.score := Q2Qc (1 # 2);
              Json.flaggedFor := None |}); reflexivity.
Defined.

Lemma lower_threshold_keeps_profane_witness :
  (Q2Qc (4 # 10) <= Q2Qc (6 # 10))%Qc
  /\ profane (response (post (Q2Qc (4 # 10)) sample_whitelist one_window
                             sample_index (json "hello world") []))
     = true.
Proof.
  split; [vm_compute; discriminate|].
  apply (lower_threshold_keeps_profane
           (Q2Qc (4 # 10)) (Q2Qc (45 # 100)) sample_whitelist one_window
           sample_index (json "hello world") [] [1%nat]);
    [vm_compute; discriminate | reflexivity].
Defined.

Lemma flagged_set_has_one_entry_per_flagged_chunk_witness :
  Promise_all sample_threshold sample_index (tasks_of one_window "darn heck")
              []
  = Some (darn_heck_values, darn_heck_store)
  /\ List.length (flaggedFor darn_heck_store)
     = List.length (filter (exceeds sample_threshold sample_index)
                           (tasks_of one_window "darn heck")).
Proof.
  split; [reflexivity|].
  apply (flagged_set_has_one_entry_per_flagged_chunk
           sample_threshold one_window sample_index "darn heck" []
           darn_heck_values darn_heck_store).
  reflexivity.
Defined.

Lemma all_whitelisted_queries_the_empty_string_witness :
  validate (json "Black swear") = inr "Black swear"
  /\ Forall (whitelisted sample_whitelist) (split_whitespace "Black swear")
  /\ queries (sample_post sample_index (json "Black swear") [])
     = [EmptyString].
Proof.
  assert (W : Forall (whitelisted sample_whitelist)
                     (split_whitespace "Black swear"))
    by (repeat constructor; unfold whitelisted; simpl; auto).
  split; [reflexivity|]. split; [exact W|].
  unfold sample_post.
  rewrite (all_whitelisted_queries_the_empty_string
             sample_threshold sample_whitelist one_window sample_index
             (json "Black swear") [] "Black swear" eq_refl W).
  reflexivity.
Defined.
